(** * vsdlog: the record store of [internal/log/store.go]

    A shallow embedding of the append-only record store and of the parts of
    Go's [os], [bufio] and [encoding/binary] packages it calls, followed by
    the properties of the store that the specification states.

    Conventions.
    - A [uint64] is a [Z] in [0, 2^64); every arithmetic step of the source
      on such a value is written with its wrap-around ([to_uint64]).
    - A byte slice is a [list byte].
    - The store is one Go object mutated in place; here every operation
      takes the store and returns the store after the call.
    - The mutex [mu] serialises the operations; an operation is modelled as
      one atomic function of the state. *)

From Stdlib Require Import ZArith List Lia Bool.
From Stdlib Require Import Init.Byte Strings.Byte.
Import ListNotations.

Local Open Scope Z_scope.

(** ** Machine integers *)

Module Int.

Definition two64 : Z := 2 ^ 64.
Definition two63 : Z := 2 ^ 63.

(** Conversion to [uint64]: the low 64 bits. *)
Definition to_uint64 (z : Z) : Z := z mod two64.

(** Conversion to [int64] (and to [int] on a 64-bit platform): the low 64
    bits read in two's complement. *)
Definition to_int64 (z : Z) : Z :=
  let u := z mod two64 in
  if u <? two63 then u else u - two64.

(** [byte(x)]: the low 8 bits. *)
Definition byte_of_Z (z : Z) : byte :=
  match Byte.of_N (Z.to_N (z mod 256)) with
  | Some b => b
  | None => x00
  end.

(** [uint64(b)] for a byte [b]. *)
Definition Z_of_byte (b : byte) : Z := Z.of_N (Byte.to_N b).

End Int.

Import Int.

(** [len(b)] of a slice, as an integer. *)
Definition len {A : Type} (l : list A) : Z := Z.of_nat (length l).

(** [make([]byte, n)]: [n] zero bytes. *)
Definition make (n : Z) : list byte := repeat x00 (Z.to_nat n).

(** [b[:n]] and [b[n:]]. *)
Definition take {A : Type} (n : Z) (l : list A) : list A := firstn (Z.to_nat n) l.
Definition drop {A : Type} (n : Z) (l : list A) : list A := skipn (Z.to_nat n) l.

(** ** Errors and results *)

(** The error values the store can return. Go's [error] interface with its
    [nil] is [option error]. *)
Inductive error : Type :=
| EOF                 (* io.EOF: a positional read reached the end of the file *)
| ErrShortWrite       (* io.ErrShortWrite *)
| ErrClosed           (* os.ErrClosed: use of a closed file *)
| ErrNegativeOffset   (* os.PathError of ReadAt: negative offset *)
| ENOSPC              (* the file system refuses to let the file grow *)
| ENOENT.             (* os.Stat: the name does not resolve *)

(** The outcome of a call that returns a value and an error; [Panic] is
    the Go program dying in the call, by a run-time panic or by a fatal
    error of the runtime: the call returns nothing. *)
Inductive result (A : Type) : Type :=
| Ok (a : A)
| Err (e : error)
| Panic.
Arguments Ok {A} a.
Arguments Err {A} e.
Arguments Panic {A}.

Definition is_Err {A : Type} (r : result A) : bool :=
  match r with Err _ => true | _ => false end.

Definition is_nil (e : option error) : bool :=
  match e with None => true | Some _ => false end.

(** ** os: a file and one handle on it *)

Module os.

(** The file behind [*os.File] as the store can observe it. The file system
    accepts writes until the file has [quota] bytes (space left on the
    device, the largest file size); a write beyond that is cut short and
    reports an error. *)
Record File : Type := mkFile {
  linked : bool;      (* the name [f.Name()] resolves, so [os.Stat] succeeds *)
  data : list byte;   (* the bytes of the file on disk *)
  quota : Z;          (* the length the file system lets the file reach *)
  closed : bool;      (* [Close] has been called on the handle *)
  append : bool;      (* the handle was opened with [O_APPEND] *)
  offset : Z          (* the handle's offset, used by [Write] without [O_APPEND] *)
}.

(** [os.Stat(f.Name())]: the [Size()] of the [FileInfo], an [int64], and
    the error. *)
Definition Stat (f : File) : Z * option error :=
  if linked f then (to_int64 (len (data f)), None) else (0, Some ENOENT).

(** Where the next [Write] puts its bytes. *)
Definition wpos (f : File) : Z :=
  if append f then len (data f) else offset f.

(** The file after [p] is written at [pos]: bytes under [p] are replaced, a
    gap past the end is filled with zero bytes. *)
Definition write_at (d : list byte) (pos : Z) (p : list byte) : list byte :=
  match p with
  | [] => d
  | _ :: _ => take pos d ++ make (pos - len d) ++ p ++ drop (pos + len p) d
  end.

(** [File.Write]: the number of bytes written and an error exactly when
    that number is less than [len(p)]. *)
Definition Write (f : File) (p : list byte) : File * Z * option error :=
  if closed f then (f, 0, Some ErrClosed)
  else
    let pos := wpos f in
    let n := Z.max 0 (Z.min (len p) (quota f - pos)) in
    let f' := {| linked := linked f;
                 data := write_at (data f) pos (take n p);
                 quota := quota f;
                 closed := false;
                 append := append f;
                 offset := pos + n |} in
    (f', n, if n <? len p then Some ENOSPC else None).

(** [File.ReadAt]: fills [b] from offset [off]; returns the slice as it is
    after the call, the number of bytes read and an error whenever that
    number is less than [len(b)]. The handle's offset is not used. *)
Definition ReadAt (f : File) (b : list byte) (off : Z)
  : list byte * Z * option error :=
  if off <? 0 then (b, 0, Some ErrNegativeOffset)
  else
    match b with
    | [] => (b, 0, None)
    | _ :: _ =>
        if closed f then (b, 0, Some ErrClosed)
        else
          let got := take (len b) (drop off (data f)) in
          (got ++ drop (len got) b, len got,
           if len got <? len b then Some EOF else None)
    end.

(** [File.Close]. *)
Definition Close (f : File) : File * option error :=
  if closed f then (f, Some ErrClosed)
  else ({| linked := linked f; data := data f; quota := quota f;
           closed := true; append := append f; offset := offset f |}, None).

(** A second [os.OpenFile] of the same name: a new handle, in append mode
    or at offset 0, on the bytes already on disk. *)
Definition OpenFile (f : File) (flagAppend : bool) : File :=
  {| linked := linked f; data := data f; quota := quota f;
     closed := false; append := flagAppend; offset := 0 |}.

End os.

(** ** bufio.Writer *)

Module bufio.

Definition defaultBufSize : Z := 4096.

(** The writer's fields [err] and [buf[0:n]], the bytes buffered so far; its
    destination [wr] is the store's file, which every function below takes
    and returns. *)
Record Writer : Type := mkWriter {
  err : option error;
  buf : list byte
}.

(** [bufio.NewWriter(f)]. *)
Definition NewWriter : Writer := {| err := None; buf := [] |}.

Definition Buffered (b : Writer) : Z := len (buf b).

Definition Available (b : Writer) : Z := defaultBufSize - len (buf b).

(** [Writer.Flush]. *)
Definition Flush (f : os.File) (b : Writer) : os.File * Writer * option error :=
  match err b with
  | Some e => (f, b, Some e)
  | None =>
      if Buffered b =? 0 then (f, b, None)
      else
        let '(f', n, e) := os.Write f (buf b) in
        let e := match e with
                 | None => if n <? Buffered b then Some ErrShortWrite else None
                 | Some _ => e
                 end in
        match e with
        | Some e' => (f', {| err := Some e'; buf := drop n (buf b) |}, Some e')
        | None => (f', {| err := None; buf := [] |}, None)
        end
  end.

(** The loop of [Writer.Write]:
    [for len(p) > b.Available() && b.err == nil]. It returns the file, the
    writer, what is left of [p] and the count [nn]. *)
Fixpoint Write_loop (fuel : nat) (f : os.File) (b : Writer) (p : list byte)
  (nn : Z) : os.File * Writer * list byte * Z :=
  match fuel with
  | O => (f, b, p, nn)
  | S fuel' =>
      if (Available b <? len p) && is_nil (err b) then
        if Buffered b =? 0 then
          (* large write, empty buffer: write directly from p *)
          let '(f', n, e) := os.Write f p in
          Write_loop fuel' f' {| err := e; buf := buf b |} (drop n p) (nn + n)
        else
          let n := Z.min (Available b) (len p) in
          let b1 := {| err := err b; buf := buf b ++ take n p |} in
          let '(f', b2, _) := Flush f b1 in
          Write_loop fuel' f' b2 (drop n p) (nn + n)
      else (f, b, p, nn)
  end.

(** The loop runs at most twice: once to fill and flush the buffer, once to
    write a large rest directly ([Write_loop_exit], [Write_loop_fuel]). *)
Definition Write_fuel : nat := 2.

(** [Writer.Write]. *)
Definition Write (f : os.File) (b : Writer) (p : list byte)
  : os.File * Writer * Z * option error :=
  let '(f1, b1, p1, nn) := Write_loop Write_fuel f b p 0 in
  match err b1 with
  | Some e => (f1, b1, nn, Some e)
  | None =>
      let n := Z.min (Available b1) (len p1) in
      (f1, {| err := None; buf := buf b1 ++ take n p1 |}, nn + n, None)
  end.

End bufio.

(** ** encoding/binary, big endian *)

Module binary.

(** [binary.BigEndian.PutUint64] into a fresh 8-byte slice. *)
Definition PutUint64 (v : Z) : list byte :=
  [ byte_of_Z (Z.shiftr v 56); byte_of_Z (Z.shiftr v 48);
    byte_of_Z (Z.shiftr v 40); byte_of_Z (Z.shiftr v 32);
    byte_of_Z (Z.shiftr v 24); byte_of_Z (Z.shiftr v 16);
    byte_of_Z (Z.shiftr v 8);  byte_of_Z v ].

(** [binary.BigEndian.Uint64]; the source reads [b[0..7]] of a slice that
    has at least 8 bytes (a shorter one panics on [b[7]]; the store only
    passes the 8-byte header, and the default covers the other shapes). *)
Definition Uint64 (b : list byte) : Z :=
  match b with
  | b0 :: b1 :: b2 :: b3 :: b4 :: b5 :: b6 :: b7 :: _ =>
      Z.lor (Z.lor (Z.lor (Z.lor (Z.lor (Z.lor (Z.lor
        (Z_of_byte b7)
        (Z.shiftl (Z_of_byte b6) 8))
        (Z.shiftl (Z_of_byte b5) 16))
        (Z.shiftl (Z_of_byte b4) 24))
        (Z.shiftl (Z_of_byte b3) 32))
        (Z.shiftl (Z_of_byte b2) 40))
        (Z.shiftl (Z_of_byte b1) 48))
        (Z.shiftl (Z_of_byte b0) 56)
  | _ => 0
  end.

(** [binary.Write(w, binary.BigEndian, v)] for a [uint64] and the buffered
    writer: the 8 bytes go through [w.Write] and only its error is kept. *)
Definition Write (f : os.File) (b : bufio.Writer) (v : Z)
  : os.File * bufio.Writer * option error :=
  let '(f', b', _, e) := bufio.Write f b (PutUint64 v) in
  (f', b', e).

End binary.

(** ** The store *)

Module log.

Definition enc_Uint64 := binary.Uint64.

Definition headerSizeBytes : Z := 8.

(** The runtime's [maxAlloc] on 64-bit Linux: [make] panics
    ("makeslice: len out of range") on a longer slice. [Read] below takes
    all memory up to [maxAlloc] to be there, which is right for the length
    of a record that was appended; [Read_mem] takes what the runtime can
    still obtain as a parameter. *)
Definition maxAlloc : Z := 2 ^ 48.

(** [type store struct]: the embedded [*os.File], [buf] and [size]; [buf]
    writes to that same file. The mutex [mu] is not a field here: every
    function below takes it on entry and releases it on return, and is one
    critical section. *)
Record store : Type := mkStore {
  File : os.File;
  buf : bufio.Writer;
  size : Z
}.

Definition newStore (f : os.File) : result store :=
  let '(fi, err) := os.Stat f in
  match err with
  | Some e => Err e
  | None =>
      let size := to_uint64 fi in
      Ok {| File := f; size := size; buf := bufio.NewWriter |}
  end.

(** [Append] returns the store after the call and [(n, pos)] or the error. *)
Definition Append (s : store) (record : list byte) : store * result (Z * Z) :=
  let pos := size s in
  let '(f1, b1, e1) :=
    binary.Write (File s) (buf s) (to_uint64 (len record)) in
  match e1 with
  | Some e => ({| File := f1; buf := b1; size := size s |}, Err e)
  | None =>
      let '(f2, b2, w, e2) := bufio.Write f1 b1 record in
      match e2 with
      | Some e => ({| File := f2; buf := b2; size := size s |}, Err e)
      | None =>
          let w := to_int64 (w + headerSizeBytes) in
          ({| File := f2; buf := b2;
              size := to_uint64 (size s + to_uint64 w) |},
           Ok (to_uint64 w, pos))
      end
  end.

Definition Read (s : store) (pos : Z) : store * result (list byte) :=
  let '(f1, b1, e0) := bufio.Flush (File s) (buf s) in
  let s1 := {| File := f1; buf := b1; size := size s |} in
  match e0 with
  | Some e => (s1, Err e)
  | None =>
      let header := make headerSizeBytes in
      let '(header, _, e1) := os.ReadAt f1 header (to_int64 pos) in
      match e1 with
      | Some e => (s1, Err e)
      | None =>
          let n := enc_Uint64 header in
          if maxAlloc <? n then (s1, Panic)
          else
            let contents := make n in
            let '(contents, _, e2) :=
              os.ReadAt f1 contents
                (to_int64 (to_uint64 (pos + headerSizeBytes))) in
            match e2 with
            | Some e => (s1, Err e)
            | None => (s1, Ok contents)
            end
      end
  end.

(** [Read] on a machine where the runtime can obtain at most [mem] more
    bytes: [make([]byte, n)] panics when [n] exceeds [maxAlloc] and the
    runtime stops the program ("fatal error: out of memory") when [n]
    exceeds [mem]; in both cases the call returns nothing. Everything else
    is as in [Read], which is [Read_mem maxAlloc]. *)
Definition Read_mem (mem : Z) (s : store) (pos : Z)
  : store * result (list byte) :=
  let '(f1, b1, e0) := bufio.Flush (File s) (buf s) in
  let s1 := {| File := f1; buf := b1; size := size s |} in
  match e0 with
  | Some e => (s1, Err e)
  | None =>
      let header := make headerSizeBytes in
      let '(header, _, e1) := os.ReadAt f1 header (to_int64 pos) in
      match e1 with
      | Some e => (s1, Err e)
      | None =>
          let n := enc_Uint64 header in
          if (maxAlloc <? n) || (mem <? n) then (s1, Panic)
          else
            let contents := make n in
            let '(contents, _, e2) :=
              os.ReadAt f1 contents
                (to_int64 (to_uint64 (pos + headerSizeBytes))) in
            match e2 with
            | Some e => (s1, Err e)
            | None => (s1, Ok contents)
            end
      end
  end.

(** [ReadAt] returns the store, the slice [b] after the call, the count and
    the error. *)
Definition ReadAt (s : store) (b : list byte) (off : Z)
  : store * (list byte * Z * option error) :=
  let '(f1, b1, e0) := bufio.Flush (File s) (buf s) in
  let s1 := {| File := f1; buf := b1; size := size s |} in
  match e0 with
  | Some e => (s1, (b, 0, Some e))
  | None => (s1, os.ReadAt f1 b off)
  end.

Definition Close (s : store) : store * option error :=
  let '(f1, b1, e0) := bufio.Flush (File s) (buf s) in
  match e0 with
  | Some e => ({| File := f1; buf := b1; size := size s |}, Some e)
  | None =>
      let '(f2, e1) := os.Close f1 in
      ({| File := f2; buf := b1; size := size s |}, e1)
  end.

End log.

Import log.

(** ** Sequences of calls *)

(** One call on the store. *)
Inductive call : Type :=
| CallAppend (record : list byte)
| CallRead (pos : Z)
| CallReadAt (b : list byte) (off : Z)
| CallClose.

(** The store after one call, whatever the call returned. *)
Definition after (s : store) (c : call) : store :=
  match c with
  | CallAppend r => fst (Append s r)
  | CallRead pos => fst (Read s pos)
  | CallReadAt b off => fst (ReadAt s b off)
  | CallClose => fst (Close s)
  end.

Definition after_all (s : store) (cs : list call) : store :=
  fold_left after cs s.

(** Appending the records of a list in order: the store after the last call
    and the pairs returned; [None] as soon as one call fails. *)
Fixpoint append_all (s : store) (rs : list (list byte))
  : store * option (list (Z * Z)) :=
  match rs with
  | [] => (s, Some [])
  | r :: rs' =>
      match Append s r with
      | (s1, Ok np) =>
          match append_all s1 rs' with
          | (s2, Some nps) => (s2, Some (np :: nps))
          | (s2, None) => (s2, None)
          end
      | (s1, _) => (s1, None)
      end
  end.

(** The positions the specification gives to a sequence of records that
    starts at [p]. *)
Fixpoint positions_from (p : Z) (rs : list (list byte)) : list Z :=
  match rs with
  | [] => []
  | r :: rs' => p :: positions_from (p + 8 + len r) rs'
  end.

(** ** Invariants *)

Definition maxInt64 : Z := two63 - 1.

(** The handle writes at the end of the file, the file is within the quota
    and the quota within what an [int64] offset can address. *)
Definition wf_File (f : os.File) : Prop :=
  os.wpos f = len (os.data f) /\
  len (os.data f) <= os.quota f /\
  os.quota f <= maxInt64.

(** What no operation of the writer changes in the file. *)
Definition same_handle (f f' : os.File) : Prop :=
  os.quota f' = os.quota f /\ os.closed f' = os.closed f /\
  os.linked f' = os.linked f /\ os.append f' = os.append f.

(** The file system has room for [n] more bytes after those on disk. *)
Definition has_room (f : os.File) (n : Z) : Prop :=
  os.closed f = false /\ len (os.data f) + n <= os.quota f.

(** The invariant of the specification: [size] is the length of the file
    plus the number of buffered bytes. *)
Definition size_invariant (s : store) : Prop :=
  size s = len (os.data (File s)) + bufio.Buffered (buf s).

(** What every call keeps, failed ones included. *)
Definition wf (s : store) : Prop :=
  wf_File (File s) /\
  bufio.Buffered (buf s) <= bufio.defaultBufSize /\
  0 <= size s <= len (os.data (File s)) + bufio.Buffered (buf s).

(** A store whose positions are right. *)
Definition consistent (s : store) : Prop :=
  wf_File (File s) /\
  bufio.Buffered (buf s) <= bufio.defaultBufSize /\
  size_invariant s.

(** The bytes of the log: those on disk followed by those still buffered. *)
Definition contents (s : store) : list byte :=
  os.data (File s) ++ bufio.buf (buf s).

(** The frame of a record: header and payload. *)
Definition frame (r : list byte) : list byte :=
  binary.PutUint64 (to_uint64 (len r)) ++ r.

(** The store after the [s.buf.Flush()] that opens [Read], [ReadAt] and
    [Close], and the error of that flush. *)
Definition flushed (s : store) : store :=
  let '(f1, b1, _) := bufio.Flush (File s) (buf s) in
  {| File := f1; buf := b1; size := size s |}.

Definition flush_error (s : store) : option error :=
  snd (bufio.Flush (File s) (buf s)).

(** The call is an [Append] that returns an error. *)
Definition failed_append (s : store) (c : call) : bool :=
  match c with
  | CallAppend r => is_Err (snd (Append s r))
  | _ => false
  end.

(** No [Append] of the sequence fails. *)
Fixpoint no_failed_append (s : store) (cs : list call) : bool :=
  match cs with
  | [] => true
  | c :: cs' => negb (failed_append s c) && no_failed_append (after s c) cs'
  end.

(** What [size] is after a call according to the specification. *)
Definition size_after (s : store) (c : call) : Z :=
  match c with
  | CallAppend r =>
      match snd (Append s r) with
      | Ok _ => size s + (8 + len r)
      | _ => size s
      end
  | _ => size s
  end.

(** ** Concrete files and stores *)

(** A new, empty file on a device with room, opened without [O_APPEND]. *)
Definition empty_file : os.File :=
  {| os.linked := true; os.data := []; os.quota := 2 ^ 20;
     os.closed := false; os.append := false; os.offset := 0 |}.

(** The same on a device that has no room left. *)
Definition full_disk_file : os.File :=
  {| os.linked := true; os.data := []; os.quota := 0;
     os.closed := false; os.append := true; os.offset := 0 |}.

(** A file of eight bytes [0xff], opened with [O_APPEND]. *)
Definition ff_file : os.File :=
  {| os.linked := true; os.data := [xff; xff; xff; xff; xff; xff; xff; xff];
     os.quota := 2 ^ 20;
     os.closed := false; os.append := true; os.offset := 0 |}.

(** A file whose name has been removed: [os.Stat] fails. *)
Definition unlinked_file : os.File :=
  {| os.linked := false; os.data := []; os.quota := 2 ^ 20;
     os.closed := false; os.append := true; os.offset := 0 |}.

(** The store [newStore] makes of a file. *)
Definition store_of (f : os.File) : store :=
  {| File := f; buf := bufio.NewWriter; size := len (os.data f) |}.

(** The bytes of ["hello"] and of ["!"], and a record larger than the
    buffer. *)
Definition hello : list byte := [x68; x65; x6c; x6c; x6f].
Definition bang : list byte := [x21].
Definition large_record : list byte := make 5000.

(** The bytes a sequence of records occupies in the log: their frames, back
    to back. *)
Definition log_bytes (rs : list (list byte)) : list byte :=
  concat (map frame rs).

(** A store after a failed [Append], and a store after [Close]. *)
Definition poisoned_store : store :=
  fst (Append (store_of full_disk_file) large_record).

Definition closed_store : store :=
  fst (Close (fst (Append (store_of empty_file) hello))).

Arguments make : simpl never.
Arguments to_int64 : simpl never.
Arguments to_uint64 : simpl never.
Arguments binary.Uint64 : simpl never.
Arguments binary.PutUint64 : simpl never.

(** ** Tactics *)

(** Split the conjunctions that are written in the goal, without unfolding
    the invariants. *)
Ltac splits := repeat match goal with |- _ /\ _ => split end.

(** Close a goal about concrete files and stores by evaluation. *)
Ltac evaluate :=
  vm_compute; repeat split; try reflexivity; try (intro; discriminate).

(** ** Facts on machine integers and on the header encoding *)

Lemma to_uint64_range (z : Z) : 0 <= to_uint64 z < two64.
Proof. unfold to_uint64, two64. apply Z.mod_pos_bound. lia. Qed.

Lemma to_uint64_small (z : Z) : 0 <= z < two64 -> to_uint64 z = z.
Proof. intros H. unfold to_uint64. now apply Z.mod_small. Qed.

Lemma to_uint64_to_int64 (z : Z) : to_uint64 (to_int64 z) = to_uint64 z.
Proof.
  unfold to_uint64, to_int64, two64, two63.
  destruct (z mod 2 ^ 64 <? 2 ^ 63).
  - now rewrite Z.mod_mod by lia.
  - rewrite <- (Z.mod_add _ 1 (2 ^ 64)) by lia.
    replace (z mod 2 ^ 64 - 2 ^ 64 + 1 * 2 ^ 64) with (z mod 2 ^ 64) by lia.
    now rewrite Z.mod_mod by lia.
Qed.

Lemma to_int64_small (z : Z) : 0 <= z < two63 -> to_int64 z = z.
Proof.
  unfold to_int64, two64, two63. intros H.
  rewrite Z.mod_small by lia.
  destruct (Z.ltb_spec z (2 ^ 63)); lia.
Qed.

Lemma to_int64_neg (z : Z) : two63 <= z < two64 -> to_int64 z < 0.
Proof.
  unfold to_int64, two64, two63. intros H.
  rewrite Z.mod_small by lia.
  destruct (Z.ltb_spec z (2 ^ 63)); lia.
Qed.

Lemma Z_of_byte_range (b : byte) : 0 <= Z_of_byte b < 256.
Proof.
  unfold Z_of_byte. pose proof (Byte.to_N_bounded b) as Hb. lia.
Qed.

Lemma Z_of_byte_of_Z (z : Z) : Z_of_byte (byte_of_Z z) = z mod 256.
Proof.
  unfold Z_of_byte, byte_of_Z.
  assert (Hr : 0 <= z mod 256 < 256) by (apply Z.mod_pos_bound; lia).
  destruct (Byte.of_N (Z.to_N (z mod 256))) as [b|] eqn:E.
  - apply Byte.to_of_N in E. rewrite E. lia.
  - apply Byte.of_N_None_iff in E. lia.
Qed.

(** A value below [2^k] shares no bit with a value shifted left by [k]. *)
Lemma land_shiftl_disjoint (lo hi k : Z) :
  0 <= k -> 0 <= lo < 2 ^ k -> Z.land lo (Z.shiftl hi k) = 0.
Proof.
  intros Hk Hlo.
  apply Z.bits_inj'; intros n Hn.
  rewrite Z.land_spec, Z.bits_0.
  destruct (Z.ltb_spec n k) as [Hlt|Hge].
  - rewrite Z.shiftl_spec_low by lia. apply andb_false_r.
  - replace (Z.testbit lo n) with false; trivial.
    symmetry.
    destruct (Z.eq_dec lo 0) as [->|Hnz]; [apply Z.bits_0|].
    apply Z.bits_above_log2; [lia|].
    apply Z.log2_lt_pow2; [lia|].
    apply Z.lt_le_trans with (2 ^ k); [lia|].
    apply Z.pow_le_mono_r; lia.
Qed.

(** Or-ing a value shifted above the bits of [lo] adds it. *)
Lemma lor_shiftl_add (lo hi k : Z) :
  0 <= k -> 0 <= lo < 2 ^ k -> Z.lor lo (Z.shiftl hi k) = lo + hi * 2 ^ k.
Proof.
  intros Hk Hlo.
  pose proof (land_shiftl_disjoint lo hi k Hk Hlo) as Hd.
  rewrite <- Z.lxor_lor by exact Hd.
  rewrite <- Z.add_nocarry_lxor by exact Hd.
  now rewrite Z.shiftl_mul_pow2.
Qed.

(** The eight base-256 digits of a 64-bit value, recombined. *)
Lemma digits256_sum (v : Z) :
  0 <= v < 2 ^ 64 ->
  v mod 256 + (v / 2 ^ 8) mod 256 * 2 ^ 8 + (v / 2 ^ 16) mod 256 * 2 ^ 16
  + (v / 2 ^ 24) mod 256 * 2 ^ 24 + (v / 2 ^ 32) mod 256 * 2 ^ 32
  + (v / 2 ^ 40) mod 256 * 2 ^ 40 + (v / 2 ^ 48) mod 256 * 2 ^ 48
  + (v / 2 ^ 56) mod 256 * 2 ^ 56 = v.
Proof.
  intros Hv.
  change (2 ^ 56) with (2 ^ 48 * 256); rewrite <- (Z.div_div v (2 ^ 48) 256) by lia.
  change (2 ^ 48) with (2 ^ 40 * 256); rewrite <- !(Z.div_div v (2 ^ 40) 256) by lia.
  change (2 ^ 40) with (2 ^ 32 * 256); rewrite <- !(Z.div_div v (2 ^ 32) 256) by lia.
  change (2 ^ 32) with (2 ^ 24 * 256); rewrite <- !(Z.div_div v (2 ^ 24) 256) by lia.
  change (2 ^ 24) with (2 ^ 16 * 256); rewrite <- !(Z.div_div v (2 ^ 16) 256) by lia.
  change (2 ^ 16) with (2 ^ 8 * 256); rewrite <- !(Z.div_div v (2 ^ 8) 256) by lia.
  change (2 ^ 8) with 256. change (2 ^ 64) with 18446744073709551616 in Hv.
  Z.div_mod_to_equations. lia.
Qed.

Lemma Uint64_PutUint64 (v : Z) :
  0 <= v < two64 -> binary.Uint64 (binary.PutUint64 v) = v.
Proof.
  unfold two64. intros Hv.
  unfold binary.Uint64, binary.PutUint64.
  rewrite !Z_of_byte_of_Z, !Z.shiftr_div_pow2 by lia.
  assert (B : forall a, 0 <= a mod 256 < 256) by (intros a; apply Z.mod_pos_bound; lia).
  pose proof (B v) as B0. pose proof (B (v / 2 ^ 8)) as B1.
  pose proof (B (v / 2 ^ 16)) as B2. pose proof (B (v / 2 ^ 24)) as B3.
  pose proof (B (v / 2 ^ 32)) as B4. pose proof (B (v / 2 ^ 40)) as B5.
  pose proof (B (v / 2 ^ 48)) as B6. pose proof (B (v / 2 ^ 56)) as B7.
  clear B.
  pose proof (digits256_sum v Hv) as S.
  rewrite (lor_shiftl_add _ _ 8) by lia.
  rewrite (lor_shiftl_add _ _ 16) by lia.
  rewrite (lor_shiftl_add _ _ 24) by lia.
  rewrite (lor_shiftl_add _ _ 32) by lia.
  rewrite (lor_shiftl_add _ _ 40) by lia.
  rewrite (lor_shiftl_add _ _ 48) by lia.
  rewrite (lor_shiftl_add _ _ 56) by lia.
  lia.
Qed.

(** ** Slices *)

Lemma len_nonneg {A} (l : list A) : 0 <= len l.
Proof. unfold len. lia. Qed.

Lemma len_nil {A} : len (@nil A) = 0.
Proof. reflexivity. Qed.

Lemma len_cons {A} (a : A) (l : list A) : len (a :: l) = 1 + len l.
Proof. unfold len. simpl length. lia. Qed.

Lemma len_app {A} (l1 l2 : list A) : len (l1 ++ l2) = len l1 + len l2.
Proof. unfold len. rewrite length_app. lia. Qed.

Lemma len_take {A} (n : Z) (l : list A) :
  len (take n l) = Z.max 0 (Z.min n (len l)).
Proof. unfold len, take. rewrite length_firstn. lia. Qed.

Lemma len_drop {A} (n : Z) (l : list A) :
  len (drop n l) = len l - Z.max 0 (Z.min n (len l)).
Proof. unfold len, drop. rewrite length_skipn. lia. Qed.

Lemma len_make (n : Z) : len (make n) = Z.max 0 n.
Proof. unfold len, make. rewrite repeat_length. lia. Qed.

Lemma len_zero_nil {A} (l : list A) : len l = 0 -> l = [].
Proof. destruct l; [trivial|]. rewrite len_cons. pose proof (len_nonneg l). lia. Qed.

Lemma take_all {A} (n : Z) (l : list A) : len l <= n -> take n l = l.
Proof. unfold len, take. intros H. apply firstn_all2. lia. Qed.

Lemma take_none {A} (n : Z) (l : list A) : n <= 0 -> take n l = [].
Proof. unfold take. intros H. now replace (Z.to_nat n) with 0%nat by lia. Qed.

Lemma drop_all {A} (n : Z) (l : list A) : len l <= n -> drop n l = [].
Proof. unfold len, drop. intros H. apply skipn_all2. lia. Qed.

Lemma drop_none {A} (n : Z) (l : list A) : n <= 0 -> drop n l = l.
Proof. unfold drop. intros H. now replace (Z.to_nat n) with 0%nat by lia. Qed.

Lemma take_drop {A} (n : Z) (l : list A) : take n l ++ drop n l = l.
Proof. unfold take, drop. apply firstn_skipn. Qed.

Lemma take_app_l {A} (n : Z) (l1 l2 : list A) :
  n <= len l1 -> take n (l1 ++ l2) = take n l1.
Proof.
  unfold len, take. intros H. rewrite firstn_app.
  replace (Z.to_nat n - length l1)%nat with 0%nat by lia.
  simpl. apply app_nil_r.
Qed.

Lemma take_app_exact {A} (l1 l2 : list A) : take (len l1) (l1 ++ l2) = l1.
Proof. rewrite take_app_l by lia. apply take_all. lia. Qed.

Lemma drop_app_r {A} (n : Z) (l1 l2 : list A) :
  len l1 <= n -> drop n (l1 ++ l2) = drop (n - len l1) l2.
Proof.
  unfold len, drop. intros H. rewrite skipn_app.
  rewrite skipn_all2 by lia. simpl. f_equal. lia.
Qed.

Lemma drop_app_exact {A} (l1 l2 : list A) : drop (len l1) (l1 ++ l2) = l2.
Proof. rewrite drop_app_r by lia. apply drop_none. lia. Qed.

Lemma drop_drop {A} (n m : Z) (l : list A) :
  0 <= n -> 0 <= m -> drop m (drop n l) = drop (n + m) l.
Proof.
  unfold drop. intros Hn Hm. rewrite skipn_skipn. f_equal. lia.
Qed.

Lemma take_take_drop {A} (n m : Z) (l : list A) :
  0 <= n -> 0 <= m -> take n l ++ take m (drop n l) = take (n + m) l.
Proof.
  unfold take, drop. intros Hn Hm.
  replace (Z.to_nat (n + m)) with (Z.to_nat n + Z.to_nat m)%nat by lia.
  revert l. induction (Z.to_nat n) as [|k IH]; intros l; simpl.
  - reflexivity.
  - destruct l as [|a l]; simpl.
    + now rewrite firstn_nil.
    + now rewrite IH.
Qed.

Lemma make_zero (n : Z) : n <= 0 -> make n = [].
Proof. unfold make. intros H. now replace (Z.to_nat n) with 0%nat by lia. Qed.

(** ** os *)

Lemma write_at_end (d p : list byte) : os.write_at d (len d) p = d ++ p.
Proof.
  unfold os.write_at. destruct p as [|a p]; [now rewrite app_nil_r|].
  rewrite take_all by lia.
  rewrite make_zero by lia.
  rewrite drop_all by (pose proof (len_nonneg (a :: p)); lia).
  simpl. now rewrite app_nil_r.
Qed.

(** A write through a handle that stands at the end of the file appends
    a prefix of [p], as long as the quota allows. *)
Lemma os_Write_spec (f f' : os.File) (p : list byte) (n : Z) (e : option error) :
  wf_File f -> os.Write f p = (f', n, e) ->
  0 <= n <= len p /\
  os.data f' = os.data f ++ take n p /\
  wf_File f' /\
  os.quota f' = os.quota f /\ os.closed f' = os.closed f /\
  os.linked f' = os.linked f /\ os.append f' = os.append f /\
  (e = None <-> n = len p /\ os.closed f = false) /\
  (os.closed f = false -> n = Z.min (len p) (os.quota f - len (os.data f))).
Proof.
  intros (Hpos & Hq & Hmax) H. unfold os.Write in H.
  pose proof (len_nonneg p) as Hp.
  destruct (os.closed f) eqn:Hc.
  - inversion H; subst; clear H.
    rewrite take_none, app_nil_r by lia.
    repeat split; try assumption; try lia; try discriminate.
  - rewrite Hpos in H.
    set (m := Z.max 0 (Z.min (len p) (os.quota f - len (os.data f)))) in *.
    assert (Hm : m = Z.min (len p) (os.quota f - len (os.data f))) by lia.
    inversion H; subst f' n e; clear H. simpl.
    rewrite write_at_end.
    repeat split; trivial; try lia.
    + unfold os.wpos; simpl. rewrite len_app, len_take.
      destruct (os.append f); lia.
    + simpl. rewrite len_app, len_take. lia.
    + destruct (Z.ltb_spec m (len p)); [discriminate|lia].
    + intros [-> _]. now rewrite Z.ltb_irrefl.
Qed.

(** A positional read that lies within the file returns the bytes there. *)
Lemma os_ReadAt_within (f : os.File) (b pre x post : list byte) (off : Z) :
  os.closed f = false ->
  os.data f = pre ++ x ++ post -> len pre = off -> len b = len x ->
  os.ReadAt f b off = (x, len x, None).
Proof.
  intros Hc Hd Hoff Hb. unfold os.ReadAt.
  pose proof (len_nonneg pre).
  destruct (Z.ltb_spec off 0); [lia|].
  destruct b as [|a b].
  - rewrite len_nil in Hb. symmetry in Hb. apply len_zero_nil in Hb. now subst x.
  - rewrite Hc, Hd, <- Hoff, drop_app_exact, Hb, take_app_exact.
    rewrite <- Hb, drop_all by lia.
    rewrite Z.ltb_irrefl. now rewrite app_nil_r.
Qed.

(** A positional read returns fewer bytes than asked only with an error. *)
Lemma os_ReadAt_short (f : os.File) (b b' : list byte) (off n : Z)
  (e : option error) :
  os.ReadAt f b off = (b', n, e) -> n < len b -> e <> None.
Proof.
  unfold os.ReadAt. intros H Hn.
  destruct (off <? 0); [inversion H; discriminate|].
  destruct b as [|a b]; [inversion H; subst; cbv in Hn; discriminate|].
  destruct (os.closed f); [inversion H; discriminate|].
  inversion H; subst; clear H.
  destruct (Z.ltb_spec (len (take (len (a :: b)) (drop off (os.data f))))
              (len (a :: b))); [discriminate|lia].
Qed.

(** A read of at least one byte that does not lie within the file fails. *)
Lemma os_ReadAt_beyond (f : os.File) (b : list byte) (off : Z) :
  0 < len b -> off < 0 \/ len (os.data f) < off + len b ->
  exists b' n e, os.ReadAt f b off = (b', n, Some e) /\ n < len b.
Proof.
  intros Hb Hoff. unfold os.ReadAt.
  destruct (Z.ltb_spec off 0) as [Hneg|Hnn]; [now eauto 6|].
  destruct Hoff as [Hoff|Hoff]; [lia|].
  destruct b as [|a b]; [cbv in Hb; discriminate|].
  destruct (os.closed f); [now eauto 6|].
  set (got := take (len (a :: b)) (drop off (os.data f))).
  assert (Hgot : len got < len (a :: b)).
  { unfold got. rewrite len_take, len_drop. lia. }
  destruct (Z.ltb_spec (len got) (len (a :: b))); [now eauto 6|lia].
Qed.

(** ** bufio *)

Lemma same_handle_refl (f : os.File) : same_handle f f.
Proof. now repeat split. Qed.

Lemma same_handle_trans (f g h : os.File) :
  same_handle f g -> same_handle g h -> same_handle f h.
Proof.
  unfold same_handle. intros (?&?&?&?) (?&?&?&?). repeat split; congruence.
Qed.

(** [Flush] moves a prefix of the buffer to the end of the file. *)
Lemma Flush_spec (f f' : os.File) (b b' : bufio.Writer) (e : option error) :
  wf_File f -> bufio.Flush f b = (f', b', e) ->
  os.data f' ++ bufio.buf b' = os.data f ++ bufio.buf b /\
  wf_File f' /\ same_handle f f' /\
  len (bufio.buf b') <= len (bufio.buf b) /\
  bufio.err b' = e /\
  (e = None -> bufio.buf b' = [] /\ bufio.err b = None).
Proof.
  intros Hwf H. unfold bufio.Flush in H.
  destruct (bufio.err b) as [e0|] eqn:He.
  { inversion H; subst. splits; trivial; try lia; try discriminate.
    apply same_handle_refl. }
  unfold bufio.Buffered in H.
  destruct (Z.eqb_spec (len (bufio.buf b)) 0) as [Hz|Hnz].
  { inversion H; subst. splits; trivial; try lia.
    - apply same_handle_refl.
    - intros _. split; [now apply len_zero_nil|trivial]. }
  destruct (os.Write f (bufio.buf b)) as [[f1 n] e1] eqn:Hw.
  destruct (os_Write_spec _ _ _ _ _ Hwf Hw)
    as (Hn & Hd & Hwf' & Hq & Hc & Hl & Ha & He1 & _).
  assert (Hcase : e1 = None /\ n = len (bufio.buf b) \/
                  exists x, e1 = Some x /\ n <= len (bufio.buf b)).
  { destruct e1 as [x|]; [right; exists x; split; [trivial|lia]|left].
    split; trivial. now apply He1. }
  destruct Hcase as [[-> ->]|(x & -> & Hle)].
  - rewrite Z.ltb_irrefl in H. inversion H; subst; clear H. simpl.
    rewrite Hd, take_all, app_nil_r by lia.
    splits; trivial; [now repeat split|apply len_nonneg|now split].
  - inversion H; subst; clear H. simpl.
    rewrite Hd, <- app_assoc, take_drop, len_drop.
    splits; trivial; [now repeat split|lia|discriminate].
Qed.

(** With no pending error and room on the device, [Flush] succeeds and
    leaves all buffered bytes at the end of the file. *)
Lemma Flush_ok (f : os.File) (b : bufio.Writer) :
  wf_File f -> bufio.err b = None ->
  bufio.buf b = [] \/ has_room f (len (bufio.buf b)) ->
  exists f',
    bufio.Flush f b = (f', bufio.NewWriter, None) /\
    os.data f' = os.data f ++ bufio.buf b /\
    wf_File f' /\ same_handle f f'.
Proof.
  intros Hwf He Hroom.
  destruct (bufio.Flush f b) as [[f' b'] e] eqn:HF.
  destruct (Flush_spec _ _ _ _ _ Hwf HF) as (Hd & Hwf' & Hs & Hl & He' & Hnone).
  assert (e = None) as ->.
  { unfold bufio.Flush in HF. rewrite He in HF.
    unfold bufio.Buffered in HF.
    destruct (Z.eqb_spec (len (bufio.buf b)) 0) as [Hz|Hnz];
      [now inversion HF|].
    destruct Hroom as [Hnil|[Hc Hq]]; [rewrite Hnil in Hnz; now cbv in Hnz|].
    destruct (os.Write f (bufio.buf b)) as [[f1 n] e1] eqn:Hw.
    destruct (os_Write_spec _ _ _ _ _ Hwf Hw) as (_ & _ & _ & _ & _ & _ & _ & He1 & Hn).
    specialize (Hn Hc).
    assert (Hn' : n = len (bufio.buf b)) by lia.
    assert (e1 = None) as -> by (apply He1; auto).
    rewrite Hn', Z.ltb_irrefl in HF. now inversion HF. }
  destruct (Hnone eq_refl) as [Hb' _].
  exists f'. destruct b' as [eb bb]; simpl in *; subst.
  rewrite app_nil_r in Hd. now splits.
Qed.

(** A write that reports no error wrote all of [p]. *)
Lemma os_Write_nil (f f' : os.File) (p : list byte) (n : Z) :
  os.Write f p = (f', n, None) -> n = len p.
Proof.
  unfold os.Write. pose proof (len_nonneg p) as Hp.
  destruct (os.closed f); [discriminate|].
  intros H; inversion H as [[Hf Hn He]]; clear H.
  destruct (Z.ltb_spec (Z.max 0 (Z.min (len p) (os.quota f - os.wpos f)))
              (len p)); [discriminate|lia].
Qed.

(** A writer without error after [Flush] has an empty buffer. *)
Lemma Flush_nil (f f' : os.File) (b b' : bufio.Writer) (e : option error) :
  bufio.Flush f b = (f', b', e) -> bufio.err b' = None -> bufio.buf b' = [].
Proof.
  unfold bufio.Flush, bufio.Buffered.
  destruct (bufio.err b) eqn:He; [intros H; inversion H; congruence|].
  destruct (Z.eqb_spec (len (bufio.buf b)) 0) as [Hz|Hnz].
  { intros H _; inversion H; subst. now apply len_zero_nil. }
  destruct (os.Write f (bufio.buf b)) as [[f1 n] e1].
  destruct e1 as [x|]; [intros H; inversion H; subst; discriminate|].
  destruct (n <? len (bufio.buf b)); intros H; inversion H; subst; trivial.
  discriminate.
Qed.

(** The loop of [Write] has stopped after two rounds. *)
Lemma Write_loop_exit (f f' : os.File) (b b' : bufio.Writer)
  (p p' : list byte) (nn nn' : Z) :
  bufio.Write_loop bufio.Write_fuel f b p nn = (f', b', p', nn') ->
  (bufio.Available b' <? len p') && is_nil (bufio.err b') = false.
Proof.
  assert (direct : forall g g' (w : bufio.Writer) q n e,
             bufio.Buffered w = 0 -> os.Write g q = (g', n, e) ->
             (bufio.Available {| bufio.err := e; bufio.buf := bufio.buf w |}
                <? len (drop n q)) && is_nil e = false).
  { intros g g' w q n e Hw HW. destruct e as [x|]; [apply andb_false_r|].
    apply os_Write_nil in HW. subst n.
    rewrite drop_all by lia.
    unfold bufio.Available, bufio.Buffered in *. simpl. rewrite Hw.
    reflexivity. }
  unfold bufio.Write_fuel. simpl.
  destruct ((bufio.Available b <? len p) && is_nil (bufio.err b)) eqn:C1;
    [|intros H; inversion H; subst; exact C1].
  destruct (Z.eqb_spec (bufio.Buffered b) 0) as [Hb|Hb].
  - destruct (os.Write f p) as [[f1 n] e] eqn:HW.
    rewrite (direct _ _ _ _ _ _ Hb HW).
    intros H; inversion H; subst. exact (direct _ _ _ _ _ _ Hb HW).
  - set (n := Z.min (bufio.Available b) (len p)).
    destruct (bufio.Flush f _) as [[f1 b2] e] eqn:HF.
    destruct ((bufio.Available b2 <? len (drop n p)) && is_nil (bufio.err b2))
      eqn:C2; [|intros H; inversion H; subst; exact C2].
    apply andb_prop in C2. destruct C2 as [_ C2].
    assert (Hnil : bufio.err b2 = None) by (destruct (bufio.err b2); [discriminate|trivial]).
    pose proof (Flush_nil _ _ _ _ _ HF Hnil) as Hbuf.
    assert (Hb2 : bufio.Buffered b2 = 0) by (unfold bufio.Buffered; now rewrite Hbuf).
    rewrite Hb2. simpl.
    destruct (os.Write f1 (drop n p)) as [[f2 n2] e2] eqn:HW.
    intros H; inversion H; subst. exact (direct _ _ _ _ _ _ Hb2 HW).
Qed.

(** Once the condition of the loop is false, more fuel changes nothing. *)
Lemma Write_loop_stable (k : nat) (f : os.File) (b : bufio.Writer)
  (p : list byte) (nn : Z) :
  (bufio.Available b <? len p) && is_nil (bufio.err b) = false ->
  bufio.Write_loop k f b p nn = (f, b, p, nn).
Proof. intros C. destruct k; simpl; [trivial|now rewrite C]. Qed.

Lemma Write_loop_add (a k : nat) (f : os.File) (b : bufio.Writer)
  (p : list byte) (nn : Z) :
  bufio.Write_loop (a + k) f b p nn =
  let '(f', b', p', nn') := bufio.Write_loop a f b p nn in
  bufio.Write_loop k f' b' p' nn'.
Proof.
  revert f b p nn. induction a as [|a IH]; intros f b p nn; simpl; [trivial|].
  destruct ((bufio.Available b <? len p) && is_nil (bufio.err b)) eqn:C.
  - destruct (bufio.Buffered b =? 0).
    + destruct (os.Write f p) as [[f1 n] e]. apply IH.
    + destruct (bufio.Flush f _) as [[f1 b2] e]. apply IH.
  - symmetry. now apply Write_loop_stable.
Qed.

(** The result of the loop does not depend on the fuel beyond two. *)
Lemma Write_loop_fuel (k : nat) (f : os.File) (b : bufio.Writer)
  (p : list byte) (nn : Z) :
  bufio.Write_loop (bufio.Write_fuel + k) f b p nn =
  bufio.Write_loop bufio.Write_fuel f b p nn.
Proof.
  rewrite Write_loop_add.
  destruct (bufio.Write_loop bufio.Write_fuel f b p nn) as [[[f' b'] p'] nn'] eqn:H.
  apply Write_loop_stable. exact (Write_loop_exit _ _ _ _ _ _ _ _ H).
Qed.

(** What the loop of [Write] has done when it stops: it has taken the
    first [nn' - nn] bytes of [p] and put them behind the bytes the file
    and the buffer held. *)
Lemma Write_loop_spec (fuel : nat) :
  forall (f f' : os.File) (b b' : bufio.Writer) (p p' : list byte) (nn nn' : Z),
  wf_File f -> len (bufio.buf b) <= bufio.defaultBufSize ->
  bufio.Write_loop fuel f b p nn = (f', b', p', nn') ->
  0 <= nn' - nn <= len p /\
  p' = drop (nn' - nn) p /\
  os.data f' ++ bufio.buf b' = os.data f ++ bufio.buf b ++ take (nn' - nn) p /\
  wf_File f' /\ same_handle f f' /\
  len (bufio.buf b') <= bufio.defaultBufSize.
Proof.
  assert (stop : forall (f : os.File) (b : bufio.Writer) (p : list byte) nn,
             wf_File f -> len (bufio.buf b) <= bufio.defaultBufSize ->
             0 <= nn - nn <= len p /\
             p = drop (nn - nn) p /\
             os.data f ++ bufio.buf b = os.data f ++ bufio.buf b ++ take (nn - nn) p /\
             wf_File f /\ same_handle f f /\
             len (bufio.buf b) <= bufio.defaultBufSize).
  { intros f b p nn Hwf Hb. pose proof (len_nonneg p).
    rewrite Z.sub_diag, drop_none, take_none, app_nil_r by lia.
    splits; trivial; try lia. apply same_handle_refl. }
  induction fuel as [|fuel IH]; intros f f' b b' p p' nn nn' Hwf Hb H; simpl in H.
  { inversion H; subst. now apply stop. }
  destruct ((bufio.Available b <? len p) && is_nil (bufio.err b)) eqn:C;
    [|inversion H; subst; now apply stop].
  apply andb_prop in C. destruct C as [C _]. apply Z.ltb_lt in C.
  unfold bufio.Available, bufio.Buffered in *.
  pose proof (len_nonneg p) as Hp. pose proof (len_nonneg (bufio.buf b)) as Hbb.
  destruct (Z.eqb_spec (len (bufio.buf b)) 0) as [Hz|Hnz].
  - (* the direct write *)
    destruct (os.Write f p) as [[f1 n] e] eqn:HW.
    destruct (os_Write_spec _ _ _ _ _ Hwf HW) as (Hn & Hd & Hwf1 & Hs1).
    apply IH in H; trivial.
    destruct H as (Hk & Hp' & Hdata & Hwf' & Hs' & Hb').
    simpl in Hdata. rewrite len_drop in Hk.
    apply len_zero_nil in Hz. rewrite Hz in *. simpl in Hdata. simpl.
    splits; trivial; try lia.
    + rewrite Hp', drop_drop by lia. f_equal. lia.
    + rewrite Hdata, Hd, <- app_assoc, take_take_drop by lia. do 2 f_equal. lia.
    + apply same_handle_trans with f1; trivial.
      destruct Hs1 as (?&?&?&?&_). now repeat split.
  - (* fill the buffer, then flush *)
    set (n := Z.min (bufio.defaultBufSize - len (bufio.buf b)) (len p)) in *.
    assert (Hn : n = bufio.defaultBufSize - len (bufio.buf b)) by lia.
    destruct (bufio.Flush f _) as [[f1 b2] e] eqn:HF.
    destruct (Flush_spec _ _ _ _ _ Hwf HF) as (Hd & Hwf1 & Hs1 & Hl & _).
    simpl in Hd, Hl. rewrite len_app, len_take in Hl.
    apply IH in H; trivial; [|lia].
    destruct H as (Hk & Hp' & Hdata & Hwf' & Hs' & Hb').
    rewrite len_drop in Hk.
    splits; trivial; try lia.
    + rewrite Hp', drop_drop by lia. f_equal. lia.
    + rewrite app_assoc in Hdata. rewrite Hdata, Hd.
      rewrite <- !app_assoc, take_take_drop by lia. do 3 f_equal. lia.
    + now apply same_handle_trans with f1.
Qed.

(** With no pending error and room on the device the loop meets no error. *)
Lemma Write_loop_room (fuel : nat) :
  forall (f f' : os.File) (b b' : bufio.Writer) (p p' : list byte) (nn nn' : Z),
  wf_File f -> len (bufio.buf b) <= bufio.defaultBufSize ->
  bufio.err b = None -> has_room f (len (bufio.buf b) + len p) ->
  bufio.Write_loop fuel f b p nn = (f', b', p', nn') ->
  bufio.err b' = None.
Proof.
  induction fuel as [|fuel IH]; intros f f' b b' p p' nn nn' Hwf Hb He Hroom H;
    simpl in H.
  { now inversion H; subst. }
  destruct ((bufio.Available b <? len p) && is_nil (bufio.err b)) eqn:C;
    [|now inversion H; subst].
  apply andb_prop in C. destruct C as [C _]. apply Z.ltb_lt in C.
  unfold bufio.Available, bufio.Buffered in *.
  pose proof (len_nonneg p) as Hp. pose proof (len_nonneg (bufio.buf b)) as Hbb.
  destruct Hroom as [Hc Hq].
  destruct (Z.eqb_spec (len (bufio.buf b)) 0) as [Hz|Hnz].
  - destruct (os.Write f p) as [[f1 n] e] eqn:HW.
    destruct (os_Write_spec _ _ _ _ _ Hwf HW)
      as (Hn & Hd & Hwf1 & Hq1 & Hc1 & _ & _ & He1 & Hn1).
    specialize (Hn1 Hc). assert (Hnp : n = len p) by lia.
    assert (e = None) as -> by (apply He1; auto).
    apply IH in H; trivial. split; [congruence|].
    simpl. rewrite Hd, len_app, len_take, len_drop. lia.
  - set (n := Z.min (bufio.defaultBufSize - len (bufio.buf b)) (len p)) in *.
    assert (Hn : n = bufio.defaultBufSize - len (bufio.buf b)) by lia.
    set (b1 := {| bufio.err := bufio.err b; bufio.buf := bufio.buf b ++ take n p |}) in *.
    assert (Hb1 : len (bufio.buf b1) = len (bufio.buf b) + n)
      by (unfold b1; simpl; rewrite len_app, len_take; lia).
    destruct (Flush_ok f b1 Hwf He) as (f2 & HF & Hd & Hwf2 & Hq2 & Hc2 & _).
    { right. split; [trivial|lia]. }
    rewrite HF in H. apply IH in H; trivial.
    + now cbv.
    + split; [congruence|]. unfold bufio.NewWriter. simpl bufio.buf.
      change (len (@nil byte)) with 0.
      rewrite Hd, len_app, Hb1, len_drop. lia.
Qed.

(** [Write] in general: a prefix of [p] of the length it returns now stands
    behind the bytes that the file and the buffer held; without error that
    prefix is all of [p]. *)
Lemma Write_spec (f f' : os.File) (b b' : bufio.Writer) (p : list byte)
  (nn : Z) (e : option error) :
  wf_File f -> len (bufio.buf b) <= bufio.defaultBufSize ->
  bufio.Write f b p = (f', b', nn, e) ->
  0 <= nn <= len p /\
  os.data f' ++ bufio.buf b' = os.data f ++ bufio.buf b ++ take nn p /\
  wf_File f' /\ same_handle f f' /\
  len (bufio.buf b') <= bufio.defaultBufSize /\
  bufio.err b' = e /\
  (e = None -> nn = len p).
Proof.
  intros Hwf Hb H. unfold bufio.Write in H.
  destruct (bufio.Write_loop bufio.Write_fuel f b p 0) as [[[f1 b1] p1] nn1] eqn:HL.
  pose proof (Write_loop_exit _ _ _ _ _ _ _ _ HL) as Hexit.
  apply Write_loop_spec in HL; trivial.
  rewrite Z.sub_0_r in HL. destruct HL as (Hk & Hp1 & Hd & Hwf1 & Hs & Hb1).
  destruct (bufio.err b1) as [x|] eqn:He1.
  - inversion H; subst; clear H. splits; trivial; try lia. discriminate.
  - rewrite andb_true_r in Hexit. apply Z.ltb_ge in Hexit.
    unfold bufio.Available in *.
    set (n := Z.min (bufio.defaultBufSize - len (bufio.buf b1)) (len p1)) in *.
    assert (Hn : n = len p1) by lia.
    assert (Hlen : len p1 = len p - nn1) by (rewrite Hp1, len_drop; lia).
    inversion H; subst f' b' nn e; clear H. simpl.
    rewrite Hn, take_all by lia.
    splits; trivial; try lia.
    + rewrite app_assoc, Hd, Hp1, <- !app_assoc, take_drop.
      rewrite take_all by (rewrite len_drop; lia). reflexivity.
    + rewrite len_app. lia.
Qed.

(** [Write] with no pending error and room on the device takes all of [p]. *)
Lemma Write_ok (f : os.File) (b : bufio.Writer) (p : list byte) :
  wf_File f -> len (bufio.buf b) <= bufio.defaultBufSize ->
  bufio.err b = None -> has_room f (len (bufio.buf b) + len p) ->
  exists f' b',
    bufio.Write f b p = (f', b', len p, None) /\
    os.data f' ++ bufio.buf b' = os.data f ++ bufio.buf b ++ p /\
    wf_File f' /\ same_handle f f' /\
    len (bufio.buf b') <= bufio.defaultBufSize /\
    bufio.err b' = None.
Proof.
  intros Hwf Hb He Hroom.
  destruct (bufio.Write f b p) as [[[f' b'] nn] e] eqn:HW.
  assert (e = None) as ->.
  { unfold bufio.Write in HW.
    destruct (bufio.Write_loop bufio.Write_fuel f b p 0) as [[[f1 b1] p1] nn1] eqn:HL.
    apply Write_loop_room in HL; trivial. rewrite HL in HW. now inversion HW. }
  destruct (Write_spec _ _ _ _ _ _ _ Hwf Hb HW) as (Hn & Hd & Hwf' & Hs & Hb' & He' & Hall).
  specialize (Hall eq_refl). subst nn.
  rewrite take_all in Hd by lia.
  exists f', b'. splits; trivial.
Qed.

(** A slice that fits in the free part of the buffer is only buffered: the
    file is not touched. *)
Lemma Write_buffered (f : os.File) (b : bufio.Writer) (p : list byte) :
  bufio.err b = None -> len p <= bufio.Available b ->
  bufio.Write f b p =
  (f, {| bufio.err := None; bufio.buf := bufio.buf b ++ p |}, len p, None).
Proof.
  intros He Hp. unfold bufio.Write, bufio.Write_fuel. simpl.
  destruct (Z.ltb_spec (bufio.Available b) (len p)); [lia|]. simpl.
  rewrite He. rewrite Z.min_r, take_all by lia. reflexivity.
Qed.

(** ** The store: [Append] *)

Lemma len_PutUint64 (v : Z) : len (binary.PutUint64 v) = 8.
Proof. reflexivity. Qed.

Lemma len_frame (r : list byte) : len (frame r) = 8 + len r.
Proof. unfold frame. now rewrite len_app, len_PutUint64. Qed.

Lemma binary_Write_eq (f : os.File) (b : bufio.Writer) (v : Z) :
  binary.Write f b v =
  (fst (fst (fst (bufio.Write f b (binary.PutUint64 v)))),
   snd (fst (fst (bufio.Write f b (binary.PutUint64 v)))),
   snd (bufio.Write f b (binary.PutUint64 v))).
Proof.
  unfold binary.Write.
  now destruct (bufio.Write f b (binary.PutUint64 v)) as [[[f' b'] n] e].
Qed.

(** The two writes of [Append], one after the other, in general: the file
    and the buffer together have grown by a prefix of the frame. *)
Lemma Append_writes (s : store) (r : list byte)
  (f1 f2 : os.File) (b1 b2 : bufio.Writer) (n1 n2 : Z) (e1 e2 : option error) :
  wf_File (File s) -> bufio.Buffered (buf s) <= bufio.defaultBufSize ->
  bufio.Write (File s) (buf s) (binary.PutUint64 (to_uint64 (len r)))
    = (f1, b1, n1, e1) ->
  bufio.Write f1 b1 r = (f2, b2, n2, e2) ->
  wf_File f1 /\ same_handle (File s) f1 /\
  bufio.Buffered b1 <= bufio.defaultBufSize /\
  len (os.data (File s)) + bufio.Buffered (buf s)
    <= len (os.data f1) + bufio.Buffered b1 /\
  wf_File f2 /\ same_handle (File s) f2 /\
  bufio.Buffered b2 <= bufio.defaultBufSize /\
  len (os.data f1) + bufio.Buffered b1 <= len (os.data f2) + bufio.Buffered b2 /\
  bufio.err b1 = e1 /\ bufio.err b2 = e2 /\
  (e1 = None -> e2 = None ->
   n2 = len r /\
   os.data f2 ++ bufio.buf b2 = (os.data (File s) ++ bufio.buf (buf s)) ++ frame r).
Proof.
  unfold bufio.Buffered. intros Hwf Hb H1 H2.
  destruct (Write_spec _ _ _ _ _ _ _ Hwf Hb H1)
    as (Hn1 & Hd1 & Hwf1 & Hs1 & Hb1 & He1 & Hall1).
  destruct (Write_spec _ _ _ _ _ _ _ Hwf1 Hb1 H2)
    as (Hn2 & Hd2 & Hwf2 & Hs2 & Hb2 & He2 & Hall2).
  assert (L1 : len (os.data f1) + len (bufio.buf b1) =
               len (os.data (File s)) + len (bufio.buf (buf s)) + n1).
  { rewrite <- len_app, Hd1, !len_app, len_take. lia. }
  assert (L2 : len (os.data f2) + len (bufio.buf b2) =
               len (os.data f1) + len (bufio.buf b1) + n2).
  { rewrite <- len_app, Hd2, !len_app, len_take. lia. }
  splits; trivial; try lia.
  - now apply same_handle_trans with f1.
  - intros E1 E2. specialize (Hall1 E1). specialize (Hall2 E2). subst n1 n2.
    split; [trivial|].
    rewrite take_all in Hd1, Hd2 by lia.
    rewrite Hd2, app_assoc, Hd1. unfold frame. now rewrite <- !app_assoc.
Qed.

(** [Append] never panics. *)
Lemma Append_no_panic (s s' : store) (r : list byte) :
  Append s r <> (s', Panic).
Proof.
  unfold Append. rewrite binary_Write_eq.
  destruct (bufio.Write (File s) (buf s) _) as [[[f1 b1] n1] [e1|]]; simpl;
    [intros H; inversion H|].
  destruct (bufio.Write f1 b1 r) as [[[f2 b2] n2] [e2|]];
    intros H; inversion H.
Qed.

(** A failed [Append]: [size] is as before, and the store stays well
    formed. Nothing here needs an invariant for the first part. *)
Lemma Append_Err_size (s s' : store) (r : list byte) (e : error) :
  Append s r = (s', Err e) -> size s' = size s.
Proof.
  unfold Append. rewrite binary_Write_eq.
  destruct (bufio.Write (File s) (buf s) _) as [[[f1 b1] n1] [e1|]]; simpl;
    [intros H; now inversion H|].
  destruct (bufio.Write f1 b1 r) as [[[f2 b2] n2] [e2|]];
    intros H; now inversion H.
Qed.

Lemma Append_Err_wf (s s' : store) (r : list byte) (e : error) :
  wf s -> Append s r = (s', Err e) ->
  wf s' /\ same_handle (File s) (File s').
Proof.
  intros (Hwf & Hb & Hsz). unfold Append. rewrite binary_Write_eq.
  destruct (bufio.Write (File s) (buf s) _) as [[[f1 b1] n1] e1] eqn:H1.
  destruct (bufio.Write f1 b1 r) as [[[f2 b2] n2] e2] eqn:H2.
  destruct (Append_writes _ _ _ _ _ _ _ _ _ _ Hwf Hb H1 H2)
    as (Hwf1 & Hs1 & Hb1 & Hl1 & Hwf2 & Hs2 & Hb2 & Hl2 & _).
  simpl. destruct e1 as [x|].
  - intros H; inversion H; subst; clear H. unfold wf; simpl.
    splits; trivial; lia.
  - rewrite H2. destruct e2 as [x|]; intros H; inversion H; subst; clear H.
    unfold wf; simpl. splits; trivial; lia.
Qed.

(** A successful [Append] on a well-formed store: no arithmetic step
    wraps around, the frame now follows the bytes of the log, and the store
    stays well formed. *)
Lemma Append_Ok_inv (s s' : store) (r : list byte) (n pos : Z) :
  wf s -> Append s r = (s', Ok (n, pos)) ->
  n = 8 + len r /\ pos = size s /\ size s' = size s + (8 + len r) /\
  contents s' = contents s ++ frame r /\
  wf s' /\ same_handle (File s) (File s') /\
  bufio.err (buf s') = None.
Proof.
  intros (Hwf & Hb & Hsz). unfold Append. rewrite binary_Write_eq.
  destruct (bufio.Write (File s) (buf s) _) as [[[f1 b1] n1] e1] eqn:H1.
  destruct (bufio.Write f1 b1 r) as [[[f2 b2] n2] e2] eqn:H2.
  destruct (Append_writes _ _ _ _ _ _ _ _ _ _ Hwf Hb H1 H2)
    as (Hwf1 & Hs1 & Hb1 & Hl1 & Hwf2 & Hs2 & Hb2 & Hl2 & He1 & He2 & Hall).
  simpl. destruct e1 as [x|]; [intros H; inversion H|].
  rewrite H2. destruct e2 as [x|]; intros H; inversion H; subst n pos s'; clear H.
  destruct (Hall eq_refl eq_refl) as [-> Hd].
  unfold contents, wf, headerSizeBytes; simpl.
  assert (Hlen : len (os.data f2) + len (bufio.buf b2) =
                 len (os.data (File s)) + len (bufio.buf (buf s)) + (8 + len r)).
  { rewrite <- len_app, Hd, !len_app, len_frame. lia. }
  pose proof Hwf2 as (Hp2 & Hq2 & Hm2).
  unfold bufio.Buffered, bufio.defaultBufSize, maxInt64, two63 in *.
  pose proof (len_nonneg r) as Hr.
  pose proof (len_nonneg (os.data (File s))).
  pose proof (len_nonneg (bufio.buf (buf s))).
  assert (Hw : to_uint64 (to_int64 (len r + 8)) = 8 + len r).
  { rewrite to_uint64_to_int64. rewrite to_uint64_small; unfold two64; lia. }
  rewrite Hw.
  assert (Hsize : to_uint64 (size s + (8 + len r)) = size s + (8 + len r)).
  { apply to_uint64_small. unfold two64. lia. }
  rewrite Hsize.
  splits; trivial; lia.
Qed.

(** With no pending error and room on the device, [Append] succeeds. *)
Lemma Append_Ok (s : store) (r : list byte) :
  wf s -> bufio.err (buf s) = None ->
  has_room (File s) (bufio.Buffered (buf s) + (8 + len r)) ->
  exists s', Append s r = (s', Ok (8 + len r, size s)).
Proof.
  intros Hwfs He Hroom. pose proof Hwfs as (Hwf & Hb & Hsz).
  destruct (Append s r) as [s' res] eqn:HA.
  destruct res as [[n pos]|e|].
  - destruct (Append_Ok_inv _ _ _ _ _ Hwfs HA) as (-> & -> & _). now exists s'.
  - exfalso. revert HA. unfold Append. rewrite binary_Write_eq.
    destruct (Write_ok (File s) (buf s) (binary.PutUint64 (to_uint64 (len r))))
      as (f1 & b1 & H1 & Hd1 & Hwf1 & Hs1 & Hb1 & He1); trivial.
    { destruct Hroom as [Hc Hq]. split; trivial.
      rewrite len_PutUint64. unfold bufio.Buffered in Hq.
      pose proof (len_nonneg r). lia. }
    rewrite H1. simpl.
    destruct (Write_ok f1 b1 r) as (f2 & b2 & H2 & _); trivial.
    { destruct Hroom as [Hc Hq]. destruct Hs1 as (Hq1 & Hc1 & _).
      split; [congruence|].
      assert (L : len (os.data f1) + len (bufio.buf b1) =
                  len (os.data (File s)) + len (bufio.buf (buf s)) + 8).
      { rewrite <- len_app, Hd1, !len_app, len_PutUint64. lia. }
      unfold bufio.Buffered in Hq. lia. }
    rewrite H2. discriminate.
  - exfalso. exact (Append_no_panic _ _ _ HA).
Qed.

(** ** The store: the flush that opens [Read], [ReadAt] and [Close] *)

Lemma Flush_flushed (s : store) :
  bufio.Flush (File s) (buf s) =
  (File (flushed s), buf (flushed s), flush_error s).
Proof.
  unfold flushed, flush_error.
  now destruct (bufio.Flush (File s) (buf s)) as [[f1 b1] e].
Qed.

Lemma size_flushed (s : store) : size (flushed s) = size s.
Proof.
  unfold flushed. now destruct (bufio.Flush (File s) (buf s)) as [[f1 b1] e].
Qed.

(** The flush keeps the bytes of the log and the shape of the store. *)
Lemma flushed_spec (s : store) :
  wf_File (File s) ->
  contents (flushed s) = contents s /\
  wf_File (File (flushed s)) /\
  same_handle (File s) (File (flushed s)) /\
  bufio.Buffered (buf (flushed s)) <= bufio.Buffered (buf s) /\
  bufio.err (buf (flushed s)) = flush_error s /\
  (flush_error s = None ->
   buf (flushed s) = bufio.NewWriter /\
   os.data (File (flushed s)) = contents s).
Proof.
  intros Hwf.
  destruct (Flush_spec _ _ _ _ _ Hwf (Flush_flushed s))
    as (Hd & Hwf' & Hs & Hl & He & Hnone).
  unfold contents, bufio.Buffered. splits; trivial.
  intros E. destruct (Hnone E) as [Hb _]. rewrite E in He.
  rewrite Hb, app_nil_r in Hd.
  split; [|exact Hd].
  destruct (buf (flushed s)) as [eb bb]; simpl in *. now subst.
Qed.

(** The flush succeeds when no error is pending and the device has room
    for the buffered bytes. *)
Lemma flush_error_None (s : store) :
  wf_File (File s) -> bufio.err (buf s) = None ->
  bufio.buf (buf s) = [] \/ has_room (File s) (bufio.Buffered (buf s)) ->
  flush_error s = None.
Proof.
  intros Hwf He Hroom.
  destruct (Flush_ok _ _ Hwf He Hroom) as (f' & HF & _).
  unfold flush_error. now rewrite HF.
Qed.

Lemma flushed_wf (s : store) : wf s -> wf (flushed s).
Proof.
  intros (Hwf & Hb & Hsz).
  destruct (flushed_spec s Hwf) as (Hc & Hwf' & _ & Hl & _).
  unfold wf. rewrite size_flushed.
  assert (L : len (contents (flushed s)) = len (contents s)) by now rewrite Hc.
  unfold contents in L. rewrite !len_app in L.
  unfold bufio.Buffered in *. splits; trivial; lia.
Qed.

Lemma flushed_consistent (s : store) : consistent s -> consistent (flushed s).
Proof.
  intros (Hwf & Hb & Hsz).
  destruct (flushed_spec s Hwf) as (Hc & Hwf' & _ & Hl & _).
  unfold consistent, size_invariant in *. rewrite size_flushed.
  assert (L : len (contents (flushed s)) = len (contents s)) by now rewrite Hc.
  unfold contents in L. rewrite !len_app in L.
  unfold bufio.Buffered in *. splits; trivial; lia.
Qed.

(** ** The store: [Read], [ReadAt], [Close] *)

Lemma Read_fst (s : store) (pos : Z) : fst (Read s pos) = flushed s.
Proof.
  unfold Read, flushed.
  destruct (bufio.Flush (File s) (buf s)) as [[f1 b1] [e|]]; [reflexivity|].
  destruct (os.ReadAt f1 _ _) as [[h n] [e|]]; [reflexivity|].
  destruct (maxAlloc <? enc_Uint64 h); [reflexivity|].
  destruct (os.ReadAt f1 _ _) as [[c m] [e|]]; reflexivity.
Qed.

Lemma ReadAt_fst (s : store) (b : list byte) (off : Z) :
  fst (ReadAt s b off) = flushed s.
Proof.
  unfold ReadAt, flushed.
  destruct (bufio.Flush (File s) (buf s)) as [[f1 b1] [e|]]; reflexivity.
Qed.

(** [Read] and [ReadAt] return the error of the flush when it fails. *)
Lemma Read_flush_error (s : store) (pos : Z) (e : error) :
  flush_error s = Some e -> Read s pos = (flushed s, Err e).
Proof.
  unfold Read, flushed, flush_error.
  destruct (bufio.Flush (File s) (buf s)) as [[f1 b1] e0]; simpl.
  now intros ->.
Qed.

Lemma ReadAt_flush_error (s : store) (b : list byte) (off : Z) (e : error) :
  flush_error s = Some e -> ReadAt s b off = (flushed s, (b, 0, Some e)).
Proof.
  unfold ReadAt, flushed, flush_error.
  destruct (bufio.Flush (File s) (buf s)) as [[f1 b1] e0]; simpl.
  now intros ->.
Qed.

(** After a flush without error [ReadAt] is the positional read of the
    file, which then holds every buffered byte. *)
Lemma ReadAt_flush_ok (s : store) (b : list byte) (off : Z) :
  flush_error s = None ->
  ReadAt s b off = (flushed s, os.ReadAt (File (flushed s)) b off).
Proof.
  unfold ReadAt, flushed, flush_error.
  destruct (bufio.Flush (File s) (buf s)) as [[f1 b1] e0]; simpl.
  now intros ->.
Qed.

(** [Close] in the two cases of its flush. *)
Lemma Close_flush_error (s : store) (e : error) :
  flush_error s = Some e -> Close s = (flushed s, Some e).
Proof.
  unfold Close, flushed, flush_error.
  destruct (bufio.Flush (File s) (buf s)) as [[f1 b1] e0]; simpl.
  now intros ->.
Qed.

Lemma Close_flush_ok (s : store) :
  flush_error s = None ->
  Close s =
  ({| File := fst (os.Close (File (flushed s)));
      buf := buf (flushed s); size := size s |},
   snd (os.Close (File (flushed s)))).
Proof.
  unfold Close, flushed, flush_error.
  destruct (bufio.Flush (File s) (buf s)) as [[f1 b1] e0]; simpl.
  intros ->. now destruct (os.Close f1).
Qed.

Lemma os_Close_spec (f : os.File) :
  os.data (fst (os.Close f)) = os.data f /\
  os.quota (fst (os.Close f)) = os.quota f /\
  os.linked (fst (os.Close f)) = os.linked f /\
  os.wpos (fst (os.Close f)) = os.wpos f /\
  (os.closed f = false ->
   os.closed (fst (os.Close f)) = true /\ snd (os.Close f) = None) /\
  (os.closed f = true -> os.Close f = (f, Some ErrClosed)).
Proof.
  unfold os.Close, os.wpos.
  destruct (os.closed f); simpl; splits; trivial; try discriminate.
  now split.
Qed.

Lemma Close_fst (s : store) :
  size (fst (Close s)) = size s /\
  buf (fst (Close s)) = buf (flushed s) /\
  os.data (File (fst (Close s))) = os.data (File (flushed s)) /\
  os.quota (File (fst (Close s))) = os.quota (File (flushed s)) /\
  os.wpos (File (fst (Close s))) = os.wpos (File (flushed s)).
Proof.
  destruct (flush_error s) as [e|] eqn:E.
  - rewrite (Close_flush_error _ _ E). simpl. rewrite size_flushed. now splits.
  - rewrite (Close_flush_ok _ E). simpl.
    destruct (os_Close_spec (File (flushed s))) as (Hd & Hq & _ & Hw & _).
    now splits.
Qed.

(** A frame that lies in the log is read back: the header gives the length
    of the payload, and the payload follows it. *)
Lemma Read_frame (s : store) (pre r post : list byte) :
  wf_File (File s) -> flush_error s = None -> os.closed (File s) = false ->
  contents s = pre ++ frame r ++ post -> len r <= maxAlloc ->
  Read s (len pre) = (flushed s, Ok r).
Proof.
  intros Hwf E Hc Hcont Hr.
  destruct (flushed_spec s Hwf) as (_ & Hwf' & Hs & _ & _ & Hnone).
  destruct (Hnone E) as [_ Hd]. rewrite Hcont in Hd.
  assert (Hc' : os.closed (File (flushed s)) = false)
    by (destruct Hs as (_ & Hcl & _); congruence).
  assert (Hbound : len pre + 8 + len r + len post <= maxInt64).
  { destruct Hwf' as (_ & Hq & Hm). rewrite Hd in Hq.
    rewrite !len_app, len_frame in Hq. lia. }
  pose proof (len_nonneg pre) as Hpre. pose proof (len_nonneg r) as Hr0.
  pose proof (len_nonneg post) as Hpost.
  unfold maxInt64, two63 in Hbound.
  unfold Read. rewrite Flush_flushed, E.
  rewrite to_int64_small by (unfold two63; lia).
  unfold frame in Hd. rewrite <- app_assoc in Hd.
  rewrite (os_ReadAt_within _ _ _ _ _ _ Hc' Hd eq_refl)
    by (unfold headerSizeBytes; now rewrite len_make, len_PutUint64).
  unfold enc_Uint64.
  rewrite Uint64_PutUint64 by apply to_uint64_range.
  rewrite to_uint64_small by (unfold two64; lia).
  destruct (Z.ltb_spec maxAlloc (len r)); [lia|].
  unfold headerSizeBytes.
  rewrite to_uint64_small by (unfold two64; lia).
  rewrite to_int64_small by (unfold two63; lia).
  rewrite app_assoc in Hd.
  rewrite (os_ReadAt_within _ (make (len r)) _ r post (len pre + 8) Hc' Hd).
  - rewrite <- (size_flushed s). now destruct (flushed s).
  - now rewrite len_app, len_PutUint64.
  - rewrite len_make. lia.
Qed.

(** A byte range that lies in the log is read back by [ReadAt]. *)
Lemma ReadAt_range (s : store) (b pre x post : list byte) :
  wf_File (File s) -> flush_error s = None -> os.closed (File s) = false ->
  contents s = pre ++ x ++ post -> len b = len x ->
  ReadAt s b (len pre) = (flushed s, (x, len x, None)).
Proof.
  intros Hwf E Hc Hcont Hb.
  destruct (flushed_spec s Hwf) as (_ & _ & Hs & _ & _ & Hnone).
  destruct (Hnone E) as [_ Hd]. rewrite Hcont in Hd.
  assert (Hc' : os.closed (File (flushed s)) = false)
    by (destruct Hs as (_ & Hcl & _); congruence).
  rewrite (ReadAt_flush_ok _ _ _ E).
  now rewrite (os_ReadAt_within _ _ _ _ _ _ Hc' Hd eq_refl Hb).
Qed.

(** ** The store: [newStore] *)

Lemma newStore_Ok (f : os.File) :
  wf_File f -> os.linked f = true ->
  newStore f =
  Ok {| File := f; buf := bufio.NewWriter; size := len (os.data f) |}.
Proof.
  intros (_ & Hq & Hm) Hl. unfold newStore, os.Stat. rewrite Hl.
  pose proof (len_nonneg (os.data f)). unfold maxInt64, two63 in Hm.
  cbv beta iota zeta.
  rewrite to_int64_small by (unfold two63; lia).
  rewrite to_uint64_small by (unfold two64; lia).
  reflexivity.
Qed.

Lemma newStore_inv (f : os.File) (s : store) :
  wf_File f -> newStore f = Ok s ->
  s = {| File := f; buf := bufio.NewWriter; size := len (os.data f) |}.
Proof.
  intros Hwf H. destruct (os.linked f) eqn:Hl.
  - rewrite (newStore_Ok f Hwf Hl) in H. now inversion H.
  - unfold newStore, os.Stat in H. rewrite Hl in H. discriminate.
Qed.

Lemma newStore_consistent (f : os.File) (s : store) :
  wf_File f -> newStore f = Ok s -> consistent s.
Proof.
  intros Hwf H. rewrite (newStore_inv f s Hwf H).
  unfold consistent, size_invariant; simpl. splits; trivial.
  - now cbv.
  - change (bufio.Buffered bufio.NewWriter) with 0. lia.
Qed.

Lemma consistent_wf (s : store) : consistent s -> wf s.
Proof.
  unfold consistent, wf, size_invariant. intros (Hwf & Hb & Hsz).
  pose proof (len_nonneg (os.data (File s))).
  pose proof (len_nonneg (bufio.buf (buf s))).
  unfold bufio.Buffered in *. splits; trivial; lia.
Qed.

(** ** Every call keeps the store well formed *)

Lemma after_wf (s : store) (c : call) : wf s -> wf (after s c).
Proof.
  intros Hwf. destruct c as [r|pos|b off|]; simpl.
  - destruct (Append s r) as [s' [[n pos]|e|]] eqn:HA; simpl.
    + now destruct (Append_Ok_inv _ _ _ _ _ Hwf HA) as (_ & _ & _ & _ & H & _).
    + now destruct (Append_Err_wf _ _ _ _ Hwf HA).
    + exfalso. exact (Append_no_panic _ _ _ HA).
  - rewrite Read_fst. now apply flushed_wf.
  - rewrite ReadAt_fst. now apply flushed_wf.
  - pose proof (flushed_wf s Hwf) as (Hf & Hb & Hsz).
    destruct (Close_fst s) as (Hs & Hbuf & Hd & Hq & Hw).
    rewrite size_flushed in Hsz.
    unfold wf, wf_File in *. rewrite Hs, Hbuf, Hd, Hq, Hw. now splits.
Qed.

Lemma after_all_wf (cs : list call) (s : store) : wf s -> wf (after_all s cs).
Proof.
  revert s. induction cs as [|c cs IH]; intros s Hwf; simpl; [trivial|].
  apply IH. now apply after_wf.
Qed.

(** What [size] is after each call. *)
Lemma after_size (s : store) (c : call) :
  wf s -> size (after s c) = size_after s c.
Proof.
  intros Hwf. destruct c as [r|pos|b off|]; simpl.
  - destruct (Append s r) as [s' [[n pos]|e|]] eqn:HA; simpl.
    + now destruct (Append_Ok_inv _ _ _ _ _ Hwf HA) as (_ & _ & H & _).
    + exact (Append_Err_size _ _ _ _ HA).
    + exfalso. exact (Append_no_panic _ _ _ HA).
  - rewrite Read_fst. apply size_flushed.
  - rewrite ReadAt_fst. apply size_flushed.
  - now destruct (Close_fst s).
Qed.

Lemma size_after_ge (s : store) (c : call) : size s <= size_after s c.
Proof.
  destruct c as [r| | |]; unfold size_after; try lia.
  pose proof (len_nonneg r). destruct (snd (Append s r)); lia.
Qed.

(** A call other than a failed [Append] keeps [size] equal to the length of
    the file plus the buffered bytes. *)
Lemma after_consistent (s : store) (c : call) :
  consistent s -> failed_append s c = false -> consistent (after s c).
Proof.
  intros Hc Hok. pose proof (consistent_wf s Hc) as Hwf.
  destruct c as [r|pos|b off|]; simpl in *.
  - destruct (Append s r) as [s' [[n pos]|e|]] eqn:HA; simpl in *.
    + destruct (Append_Ok_inv _ _ _ _ _ Hwf HA) as (_ & _ & Hs & Hcont & Hwf' & _).
      destruct Hwf' as (Hf & Hb & _). destruct Hc as (_ & _ & Hinv).
      unfold consistent, size_invariant in *. splits; trivial.
      assert (L : len (contents s') = len (contents s) + (8 + len r))
        by (rewrite Hcont, len_app, len_frame; lia).
      unfold contents in L. rewrite !len_app in L.
      unfold bufio.Buffered in *. lia.
    + discriminate.
    + exfalso. exact (Append_no_panic _ _ _ HA).
  - rewrite Read_fst. now apply flushed_consistent.
  - rewrite ReadAt_fst. now apply flushed_consistent.
  - pose proof (flushed_consistent s Hc) as (Hf & Hb & Hsz).
    destruct (Close_fst s) as (Hs & Hbuf & Hd & Hq & Hw).
    unfold consistent, size_invariant, wf_File in *.
    rewrite size_flushed in Hsz.
    rewrite Hs, Hbuf, Hd, Hq, Hw. now splits.
Qed.

(** ** The scenario of the specification, evaluated *)

Example scenario_appends :
  let s0 := store_of empty_file in
  let '(s1, r1) := Append s0 hello in
  let '(s2, r2) := Append s1 bang in
  r1 = Ok (13, 0) /\ r2 = Ok (9, 13) /\
  snd (Read s2 0) = Ok hello /\ snd (Read s2 13) = Ok bang.
Proof. vm_compute. repeat split. Qed.

Example scenario_empty_record :
  let s0 := store_of empty_file in
  snd (Append s0 []) = Ok (8, 0) /\ snd (Read (fst (Append s0 [])) 0) = Ok [].
Proof. vm_compute. repeat split. Qed.

Example scenario_large_record :
  let s1 := fst (Append (store_of empty_file) large_record) in
  snd (Append (store_of empty_file) large_record) = Ok (5008, 0) /\
  len (os.data (File s1)) = 4096 /\ bufio.Buffered (buf s1) = 912 /\
  snd (Read s1 0) = Ok large_record.
Proof. vm_compute. repeat split. Qed.

(** [ReadAt] into an empty slice reads nothing and reports no error, even
    from an offset past the end of the file. *)
Example scenario_ReadAt_empty_slice :
  snd (ReadAt (store_of empty_file) [] 1000) = ([], 0, None).
Proof. reflexivity. Qed.

Lemma wf_File_empty_file : wf_File empty_file.
Proof. vm_compute. repeat split; intro; discriminate. Qed.

Lemma consistent_store_of (f : os.File) : wf_File f -> consistent (store_of f).
Proof.
  intros Hwf. unfold consistent, size_invariant, store_of; simpl.
  splits; trivial.
  - now cbv.
  - change (bufio.Buffered bufio.NewWriter) with 0. lia.
Qed.

(** ** C1: round trip *)

(** C1. Whatever the record [r], the empty one included: when [Append r]
    on a consistent store returns the position [pos], [Read pos] on the
    store it leaves returns exactly [r]. The read needs its flush to
    succeed (the handle is open and the device has room for the buffered
    bytes) and [r] to be a slice the runtime can allocate. *)
Theorem Read_after_Append (s s1 : store) (r : list byte) (n pos : Z) :
  consistent s ->
  Append s r = (s1, Ok (n, pos)) ->
  has_room (File s1) (bufio.Buffered (buf s1)) ->
  len r <= maxAlloc ->
  Read s1 pos = (flushed s1, Ok r).
Proof.
  intros Hc HA Hroom Hr.
  pose proof (consistent_wf s Hc) as Hwf.
  destruct (Append_Ok_inv _ _ _ _ _ Hwf HA)
    as (_ & -> & _ & Hcont & (Hf1 & _) & _ & He1).
  destruct Hc as (_ & _ & Hinv).
  assert (Hpos : size s = len (contents s)).
  { unfold size_invariant, bufio.Buffered in Hinv. unfold contents.
    now rewrite len_app. }
  rewrite Hpos.
  apply Read_frame with (post := []); trivial.
  - apply flush_error_None; auto.
  - now destruct Hroom.
  - now rewrite app_nil_r.
Qed.

Lemma Read_after_Append_witness :
  Read (fst (Append (store_of empty_file) hello)) 0
  = (flushed (fst (Append (store_of empty_file) hello)), Ok hello).
Proof.
  apply (Read_after_Append (store_of empty_file) _ hello 13 0); evaluate.
Defined.

(** ** C2: what [Append] returns *)

Lemma append_all_positions (rs : list (list byte)) :
  forall (s s' : store) (nps : list (Z * Z)),
  wf s -> append_all s rs = (s', Some nps) ->
  map fst nps = map (fun r => 8 + len r) rs /\
  map snd nps = positions_from (size s) rs.
Proof.
  induction rs as [|r rs IH]; intros s s' nps Hwf H; simpl in H.
  - inversion H; subst. now split.
  - destruct (Append s r) as [s1 [[n pos]|e|]] eqn:HA; try discriminate.
    destruct (append_all s1 rs) as [s2 [nps'|]] eqn:HR; try discriminate.
    inversion H; subst s' nps; clear H.
    destruct (Append_Ok_inv _ _ _ _ _ Hwf HA) as (-> & -> & Hs & _ & Hwf1 & _).
    destruct (IH _ _ _ Hwf1 HR) as [IH1 IH2].
    simpl. rewrite IH1, IH2, Hs. split; [reflexivity|].
    do 2 f_equal. lia.
Qed.

(** C2. A successful [Append r] returns [(8 + len r, pos)] with [pos] the
    [size] of the store just before the call. Hence for records
    [r1, ..., rn] appended in order, all with success, the positions are
    [pos(r1) = size] at the start, which is 0 for a store opened on an empty
    file, and [pos(r_{i+1}) = pos(r_i) + 8 + len(r_i)]. *)
Theorem Append_positions (s s' : store) (rs : list (list byte))
  (nps : list (Z * Z)) :
  wf s ->
  append_all s rs = (s', Some nps) ->
  map fst nps = map (fun r => 8 + len r) rs /\
  map snd nps = positions_from (size s) rs /\
  (forall f, wf_File f -> os.data f = [] -> newStore f = Ok s ->
             map snd nps = positions_from 0 rs) /\
  (forall r s1 n pos, Append s r = (s1, Ok (n, pos)) ->
                      n = 8 + len r /\ pos = size s).
Proof.
  intros Hwf H.
  destruct (append_all_positions rs s s' nps Hwf H) as [H1 H2].
  splits; trivial.
  - intros f Hf Hd Hn. rewrite (newStore_inv f s Hf Hn) in H2. simpl in H2.
    now rewrite Hd in H2.
  - intros r s1 n pos HA.
    now destruct (Append_Ok_inv _ _ _ _ _ Hwf HA) as (-> & -> & _).
Qed.

Lemma Append_positions_witness :
  map fst [(13, 0); (9, 13); (8, 22)] = map (fun r => 8 + len r) [hello; bang; []] /\
  map snd [(13, 0); (9, 13); (8, 22)] = positions_from 0 [hello; bang; []].
Proof.
  destruct (Append_positions (store_of empty_file)
              (fst (append_all (store_of empty_file) [hello; bang; []]))
              [hello; bang; []] [(13, 0); (9, 13); (8, 22)])
    as (H1 & H2 & _); [evaluate|evaluate|].
  split; [exact H1|exact H2].
Defined.

(** ** C3: [size] against the file and the buffer *)

(** C3 fails after a failed [Append]: on a device without room, appending a
    record larger than the buffer fills the buffer with the header and the
    start of the record, the flush fails, [Append] returns the error and
    leaves [size] at 0, while 4096 bytes are buffered. *)
Lemma size_invariant_counterexample :
  size_invariant (store_of full_disk_file) /\
  snd (Append (store_of full_disk_file) large_record) = Err ENOSPC /\
  size (fst (Append (store_of full_disk_file) large_record)) = 0 /\
  len (os.data (File (fst (Append (store_of full_disk_file) large_record)))) = 0 /\
  bufio.Buffered (buf (fst (Append (store_of full_disk_file) large_record))) = 4096 /\
  ~ size_invariant (fst (Append (store_of full_disk_file) large_record)).
Proof. evaluate. Qed.

Lemma after_all_consistent (cs : list call) :
  forall s, consistent s -> no_failed_append s cs = true ->
            consistent (after_all s cs).
Proof.
  induction cs as [|c cs IH]; intros s Hc H; simpl in *; [trivial|].
  apply andb_prop in H. destruct H as [H1 H2].
  apply IH; trivial. apply after_consistent; trivial.
  now destruct (failed_append s c).
Qed.

(** C3, amended. After [newStore] on a handle that writes at the end of its
    file, and then after every sequence of calls in which no [Append]
    returns an error, [size] is the length of the file plus the number of
    bytes in the write buffer; [Read], [ReadAt] and [Close] keep this
    whether they succeed or fail. *)
Theorem size_invariant_kept (f : os.File) (s : store) (cs : list call) :
  wf_File f ->
  newStore f = Ok s ->
  no_failed_append s cs = true ->
  size_invariant s /\
  size_invariant (after_all s cs) /\
  (forall s', consistent s' ->
     (forall pos, consistent (fst (Read s' pos))) /\
     (forall b off, consistent (fst (ReadAt s' b off))) /\
     consistent (fst (Close s')) /\
     (forall r s'' np, Append s' r = (s'', Ok np) -> consistent s'')).
Proof.
  intros Hf Hn Hcs.
  pose proof (newStore_consistent f s Hf Hn) as Hc.
  splits.
  - now destruct Hc as (_ & _ & H).
  - now destruct (after_all_consistent cs s Hc Hcs) as (_ & _ & H).
  - intros s' Hc'. splits.
    + intros pos. exact (after_consistent s' (CallRead pos) Hc' eq_refl).
    + intros b off. exact (after_consistent s' (CallReadAt b off) Hc' eq_refl).
    + exact (after_consistent s' CallClose Hc' eq_refl).
    + intros r s'' np HA.
      pose proof (after_consistent s' (CallAppend r) Hc') as H.
      simpl in H. rewrite HA in H. now apply H.
Qed.

Lemma size_invariant_kept_witness :
  size_invariant
    (after_all (store_of empty_file)
       [CallAppend hello; CallRead 0; CallAppend large_record;
        CallReadAt (make 4) 13; CallRead 99; CallClose; CallClose]).
Proof.
  destruct (size_invariant_kept empty_file (store_of empty_file)
              [CallAppend hello; CallRead 0; CallAppend large_record;
               CallReadAt (make 4) 13; CallRead 99; CallClose; CallClose])
    as (_ & H & _); [evaluate|evaluate|evaluate|exact H].
Defined.

(** ** C5: a failed [Append] *)

(** C5. When the write of the header or the write of the payload into the
    buffered writer returns an error, [Append] returns that error, and a
    call of [Append] that returns an error leaves [size] as it was. *)
Theorem Append_failure_keeps_size (s s' : store) (r : list byte) (e : error) :
  Append s r = (s', Err e) ->
  size s' = size s /\
  (exists f1 b1,
     binary.Write (File s) (buf s) (to_uint64 (len r)) = (f1, b1, Some e) \/
     exists f2 b2 w,
       binary.Write (File s) (buf s) (to_uint64 (len r)) = (f1, b1, None) /\
       bufio.Write f1 b1 r = (f2, b2, w, Some e)) /\
  (forall f1 b1 e1,
     binary.Write (File s) (buf s) (to_uint64 (len r)) = (f1, b1, Some e1) ->
     snd (Append s r) = Err e1 /\ size (fst (Append s r)) = size s) /\
  (forall f1 b1 f2 b2 w e2,
     binary.Write (File s) (buf s) (to_uint64 (len r)) = (f1, b1, None) ->
     bufio.Write f1 b1 r = (f2, b2, w, Some e2) ->
     snd (Append s r) = Err e2 /\ size (fst (Append s r)) = size s).
Proof.
  intros HA. splits.
  - exact (Append_Err_size _ _ _ _ HA).
  - revert HA. unfold Append.
    destruct (binary.Write (File s) (buf s) _) as [[f1 b1] [e1|]].
    + intros H; inversion H; subst. exists f1, b1. now left.
    + destruct (bufio.Write f1 b1 r) as [[[f2 b2] w] [e2|]] eqn:HW;
        intros H; inversion H; subst.
      exists f1, b1. right. now exists f2, b2, w.
  - intros f1 b1 e1 H1. unfold Append. rewrite H1. now split.
  - intros f1 b1 f2 b2 w e2 H1 H2. unfold Append. rewrite H1, H2. now split.
Qed.

Lemma Append_failure_keeps_size_witness :
  size (fst (Append (store_of full_disk_file) large_record))
  = size (store_of full_disk_file).
Proof.
  destruct (Append_failure_keeps_size (store_of full_disk_file)
              (fst (Append (store_of full_disk_file) large_record))
              large_record ENOSPC) as (H & _); [evaluate|exact H].
Defined.

(** ** C10: only a successful [Append] changes [size] *)

Lemma after_all_size (cs : list call) :
  forall s, wf s -> size s <= size (after_all s cs).
Proof.
  induction cs as [|c cs IH]; intros s Hwf; simpl; [lia|].
  apply Z.le_trans with (size (after s c)).
  - rewrite (after_size s c Hwf). apply size_after_ge.
  - apply IH. now apply after_wf.
Qed.

(** C10. On a well-formed store, [size] after a call is [size] before it,
    except after an [Append] that succeeds, where it is larger by exactly
    [8 + len record]; so [Read], [ReadAt], [Close] and a failed [Append]
    leave [size] unchanged, and [size] never decreases along a sequence of
    calls, every store of which is again well formed. *)
Theorem size_changes_only_by_Append (s : store) (cs : list call) :
  wf s ->
  (forall r s' np, Append s r = (s', Ok np) -> size s' = size s + (8 + len r)) /\
  (forall r s' e, Append s r = (s', Err e) -> size s' = size s) /\
  (forall pos, size (fst (Read s pos)) = size s) /\
  (forall b off, size (fst (ReadAt s b off)) = size s) /\
  size (fst (Close s)) = size s /\
  (forall c, size (after s c) = size_after s c /\ size s <= size (after s c)) /\
  size s <= size (after_all s cs) /\
  wf (after_all s cs).
Proof.
  intros Hwf. splits.
  - intros r s' [n pos] HA.
    now destruct (Append_Ok_inv _ _ _ _ _ Hwf HA) as (_ & _ & H & _).
  - intros r s' e HA. exact (Append_Err_size _ _ _ _ HA).
  - intros pos. rewrite Read_fst. apply size_flushed.
  - intros b off. rewrite ReadAt_fst. apply size_flushed.
  - now destruct (Close_fst s).
  - intros c. rewrite (after_size s c Hwf). split; [trivial|apply size_after_ge].
  - now apply after_all_size.
  - now apply after_all_wf.
Qed.

Lemma size_changes_only_by_Append_witness :
  size (store_of empty_file)
  <= size (after_all (store_of empty_file)
             [CallAppend hello; CallRead 0; CallClose; CallAppend large_record;
              CallAppend bang; CallReadAt (make 4) 0]).
Proof.
  destruct (size_changes_only_by_Append (store_of empty_file)
              [CallAppend hello; CallRead 0; CallClose; CallAppend large_record;
               CallAppend bang; CallReadAt (make 4) 0])
    as (_ & _ & _ & _ & _ & _ & H & _); [evaluate|exact H].
Defined.

(** ** C4: a read sees the appended record without a flush by the caller *)

(** A frame that fits in the free part of the buffer is only buffered. *)
Lemma Append_buffered (s : store) (r : list byte) :
  wf s -> bufio.err (buf s) = None ->
  8 + len r <= bufio.Available (buf s) ->
  Append s r =
  ({| File := File s;
      buf := {| bufio.err := None; bufio.buf := bufio.buf (buf s) ++ frame r |};
      size := size s + (8 + len r) |},
   Ok (8 + len r, size s)).
Proof.
  intros Hwf He Hfit. pose proof (len_nonneg r) as Hr.
  destruct (Append s r) as [s' res] eqn:HA.
  assert (Hshape : File s' = File s /\
                   buf s' = {| bufio.err := None;
                               bufio.buf := bufio.buf (buf s) ++ frame r |} /\
                   exists np, res = Ok np).
  { revert HA. unfold Append, binary.Write.
    rewrite Write_buffered by (trivial; rewrite len_PutUint64; lia).
    set (b1 := {| bufio.err := None; bufio.buf := _ |}).
    assert (Hfit1 : len r <= bufio.Available b1).
    { unfold bufio.Available, b1 in *. cbn [bufio.buf].
      rewrite len_app, len_PutUint64. lia. }
    rewrite (Write_buffered (File s) b1 r eq_refl Hfit1).
    intros H; inversion H; subst; cbn [File buf bufio.buf b1]. unfold frame.
    rewrite <- app_assoc. splits; trivial. eauto. }
  destruct Hshape as (HF & HB & [[n pos] ->]).
  destruct (Append_Ok_inv _ _ _ _ _ Hwf HA) as (-> & -> & Hs & _).
  f_equal. destruct s' as [f' b' z']. simpl in *. now subst.
Qed.

(** C4. A record appended to a consistent store is read back at once,
    with no flush by the caller: [Read] at the returned position returns
    the record and [ReadAt] returns its frame. This holds although [Append]
    leaves a frame that fits in the free part of the buffer in the buffer
    only, the file being as before: [Read] and [ReadAt] flush the write
    buffer first, at every position, so that the file then holds every
    buffered byte and the buffer is empty. The device must have room for the
    flush and the record be a slice the runtime can allocate. *)
Theorem Read_flushes_first (s : store) (r : list byte) :
  consistent s ->
  bufio.err (buf s) = None ->
  has_room (File s) (bufio.Buffered (buf s) + (8 + len r)) ->
  len r <= maxAlloc ->
  let s1 := fst (Append s r) in
  snd (Append s r) = Ok (8 + len r, size s) /\
  (8 + len r <= bufio.Available (buf s) ->
   os.data (File s1) = os.data (File s) /\
   bufio.buf (buf s1) = bufio.buf (buf s) ++ frame r) /\
  Read s1 (size s) = (flushed s1, Ok r) /\
  (forall b, len b = 8 + len r ->
     ReadAt s1 b (size s) = (flushed s1, (frame r, 8 + len r, None))) /\
  (forall pos, fst (Read s1 pos) = flushed s1) /\
  (forall b off, fst (ReadAt s1 b off) = flushed s1) /\
  os.data (File (flushed s1)) = os.data (File s) ++ bufio.buf (buf s) ++ frame r /\
  bufio.buf (buf (flushed s1)) = [].
Proof.
  intros Hc He Hroom Hr.
  pose proof (consistent_wf s Hc) as Hwf.
  destruct (Append_Ok s r Hwf He Hroom) as (s' & HA).
  destruct (Append_Ok_inv _ _ _ _ _ Hwf HA)
    as (_ & _ & _ & Hcont & (Hf1 & _) & Hs1 & He1).
  pose proof Hc as (Hf & Hb & Hinv).
  assert (Hpos : size s = len (contents s)).
  { unfold size_invariant, bufio.Buffered in Hinv. unfold contents.
    now rewrite len_app. }
  intros s1. subst s1. rewrite HA. simpl fst. simpl snd.
  assert (Hcl : os.closed (File s') = false).
  { destruct Hroom as [Hcl _]. destruct Hs1 as (_ & -> & _). exact Hcl. }
  assert (E : flush_error s' = None).
  { apply flush_error_None; trivial. right. split; trivial.
    destruct Hroom as [_ Hq]. destruct Hs1 as (-> & _).
    assert (L : len (contents s') = len (contents s) + (8 + len r))
      by (rewrite Hcont, len_app, len_frame; lia).
    unfold contents in L. rewrite !len_app in L.
    unfold bufio.Buffered in *. lia. }
  destruct (flushed_spec s' Hf1) as (_ & _ & _ & _ & _ & Hnone).
  destruct (Hnone E) as [Hbuf Hdata].
  rewrite <- (app_nil_r (frame r)) in Hcont.
  splits; trivial.
  - intros Hfit. rewrite (Append_buffered s r Hwf He Hfit) in HA.
    inversion HA; subst s'. now split.
  - rewrite Hpos. now apply Read_frame with (post := []).
  - intros b Hlen. rewrite Hpos, <- len_frame.
    apply ReadAt_range with (post := []); trivial.
    now rewrite len_frame.
  - intros pos. apply Read_fst.
  - intros b off. apply ReadAt_fst.
  - rewrite Hdata, Hcont. unfold contents. now rewrite app_nil_r, app_assoc.
  - now rewrite Hbuf.
Qed.

Lemma Read_flushes_first_witness :
  let s1 := fst (Append (store_of empty_file) hello) in
  os.data (File s1) = [] /\ bufio.buf (buf s1) = frame hello /\
  Read s1 0 = (flushed s1, Ok hello).
Proof.
  destruct (Read_flushes_first (store_of empty_file) hello)
    as (_ & H1 & H2 & _); [evaluate ..|].
  destruct H1 as [H1 H1']; [evaluate|].
  cbv zeta. splits; [exact H1|exact H1'|exact H2].
Defined.

(** ** C6: reads beyond the end of the file *)

(** C6 fails where the header found at the position holds a length that the
    runtime cannot allocate: [make] panics before the payload is read. The
    file of eight bytes [0xff] has at position 0 a header of 2^64 - 1, so
    the payload read would extend past the end of the file, and [Read]
    panics instead of returning an error. *)
Lemma Read_garbage_header_panics :
  len (os.data ff_file) < 0 + 8 + binary.Uint64 (os.data ff_file) /\
  snd (Read (store_of ff_file) 0) = Panic /\
  is_Err (snd (Read (store_of ff_file) 0)) = false /\
  snd (Read_mem (2 ^ 30) (store_of ff_file) 0) = Panic.
Proof. evaluate. Qed.

(** A positional read without error of at least one byte lies within the
    file, on an open handle, and returns the bytes there. *)
Lemma os_ReadAt_success (f : os.File) (b b' : list byte) (off n : Z) :
  os.ReadAt f b off = (b', n, None) -> 0 < len b ->
  0 <= off /\ os.closed f = false /\
  b' = take (len b) (drop off (os.data f)) /\
  off + len b <= len (os.data f).
Proof.
  unfold os.ReadAt. intros H Hb.
  destruct (Z.ltb_spec off 0); [discriminate|].
  destruct b as [|a b]; [cbv in Hb; discriminate|].
  destruct (os.closed f); [discriminate|].
  set (got := take (len (a :: b)) (drop off (os.data f))) in *.
  destruct (Z.ltb_spec (len got) (len (a :: b))) as [|Hge]; [discriminate|].
  inversion H; subst b' n; clear H.
  assert (Hgot : len got = len (a :: b))
    by (unfold got in *; rewrite len_take in *; lia).
  rewrite Hgot, drop_all, app_nil_r by lia.
  splits; trivial.
  unfold got in Hgot. rewrite len_take, len_drop in Hgot. lia.
Qed.

(** No write and no flush opens or closes the handle. *)
Lemma os_Write_closed (f f' : os.File) (p : list byte) (n : Z)
  (e : option error) :
  os.Write f p = (f', n, e) -> os.closed f' = os.closed f.
Proof.
  unfold os.Write. destruct (os.closed f) eqn:Hc; intros H; inversion H; subst;
    trivial.
Qed.

Lemma Flush_closed (f f' : os.File) (b b' : bufio.Writer) (e : option error) :
  bufio.Flush f b = (f', b', e) -> os.closed f' = os.closed f.
Proof.
  unfold bufio.Flush.
  destruct (bufio.err b); [intros H; now inversion H|].
  destruct (bufio.Buffered b =? 0); [intros H; now inversion H|].
  destruct (os.Write f (bufio.buf b)) as [[f1 n] e1] eqn:HW.
  apply os_Write_closed in HW.
  destruct e1 as [x|]; [intros H; inversion H; congruence|].
  destruct (n <? bufio.Buffered b); intros H; inversion H; congruence.
Qed.

Lemma flushed_closed (s : store) :
  os.closed (File (flushed s)) = os.closed (File s).
Proof. exact (Flush_closed _ _ _ _ _ (Flush_flushed s)). Qed.

(** With all memory up to [maxAlloc] there, [Read_mem] is [Read]. *)
Lemma Read_mem_maxAlloc (s : store) (pos : Z) :
  Read_mem maxAlloc s pos = Read s pos.
Proof.
  unfold Read_mem, Read.
  destruct (bufio.Flush (File s) (buf s)) as [[f1 b1] [e|]]; [reflexivity|].
  destruct (os.ReadAt f1 _ _) as [[h n] [e|]]; [reflexivity|].
  now rewrite orb_diag.
Qed.

Lemma Read_mem_flush_error (mem : Z) (s : store) (pos : Z) (e : error) :
  flush_error s = Some e -> Read_mem mem s pos = (flushed s, Err e).
Proof.
  unfold Read_mem, flushed, flush_error.
  destruct (bufio.Flush (File s) (buf s)) as [[f1 b1] e0]; simpl.
  now intros ->.
Qed.

(** The header does not lie within the file: an error, whatever the memory. *)
Lemma Read_mem_header_beyond (mem : Z) (s : store) (pos : Z) :
  0 <= pos < two64 ->
  len (os.data (File (flushed s))) < pos + 8 ->
  is_Err (snd (Read_mem mem s pos)) = true.
Proof.
  intros Hpos Hlen.
  destruct (flush_error s) as [e|] eqn:E;
    [now rewrite (Read_mem_flush_error _ _ _ _ E)|].
  unfold Read_mem. rewrite Flush_flushed, E.
  destruct (os_ReadAt_beyond (File (flushed s)) (make headerSizeBytes)
              (to_int64 pos)) as (b' & n & e & -> & _); [now cbv| |reflexivity].
  destruct (Z.lt_ge_cases pos two63).
  - right. rewrite to_int64_small by lia. now rewrite len_make.
  - left. apply to_int64_neg. lia.
Qed.

(** The payload does not lie within the file: never a value; an error when
    the slice for it can be allocated. *)
Lemma Read_mem_payload_beyond (mem : Z) (s : store) (pos : Z) :
  0 <= pos < two64 ->
  pos + 8 <= len (os.data (File (flushed s))) ->
  len (os.data (File (flushed s)))
    < pos + 8 + binary.Uint64 (take 8 (drop pos (os.data (File (flushed s))))) ->
  (binary.Uint64 (take 8 (drop pos (os.data (File (flushed s))))) <= maxAlloc ->
   binary.Uint64 (take 8 (drop pos (os.data (File (flushed s))))) <= mem ->
   is_Err (snd (Read_mem mem s pos)) = true) /\
  (forall c, snd (Read_mem mem s pos) <> Ok c).
Proof.
  intros Hpos Hhdr Hlen.
  destruct (flush_error s) as [e|] eqn:E.
  { rewrite (Read_mem_flush_error _ _ _ _ E). simpl. split; [trivial|discriminate]. }
  unfold Read_mem. rewrite Flush_flushed, E.
  destruct (os.ReadAt (File (flushed s)) (make headerSizeBytes) (to_int64 pos))
    as [[h n] [e1|]] eqn:H1; [simpl; split; [trivial|discriminate]|].
  destruct (os_ReadAt_success _ _ _ _ _ H1) as (Hoff & Hc & Hh & _); [now cbv|].
  assert (Hp63 : pos < two63).
  { destruct (Z.lt_ge_cases pos two63); [trivial|].
    pose proof (to_int64_neg pos). lia. }
  rewrite to_int64_small in Hh by lia.
  change (len (make headerSizeBytes)) with 8 in Hh. subst h.
  unfold enc_Uint64.
  set (N := binary.Uint64 _) in *.
  destruct ((maxAlloc <? N) || (mem <? N)) eqn:Halloc.
  { simpl. split; [|discriminate]. intros H1' H2'.
    apply orb_prop in Halloc. destruct Halloc as [Hm|Hm]; apply Z.ltb_lt in Hm; lia. }
  unfold headerSizeBytes.
  assert (Hu : to_uint64 (pos + 8) = pos + 8)
    by (apply to_uint64_small; unfold two63, two64 in *; lia).
  rewrite Hu.
  destruct (os_ReadAt_beyond (File (flushed s)) (make N) (to_int64 (pos + 8)))
    as (b' & m & e & -> & _).
  - rewrite len_make. lia.
  - destruct (Z.lt_ge_cases (pos + 8) two63).
    + right. rewrite to_int64_small by lia. rewrite len_make. lia.
    + left. apply to_int64_neg. unfold two63, two64 in *. lia.
  - simpl. split; [trivial|discriminate].
Qed.

(** A header that holds more than [maxAlloc], or more than the memory the
    runtime can obtain, ends the program in [make]. *)
Lemma Read_mem_panics (mem : Z) (s : store) (pos : Z) :
  0 <= pos < two63 ->
  flush_error s = None -> os.closed (File s) = false ->
  pos + 8 <= len (os.data (File (flushed s))) ->
  maxAlloc < binary.Uint64 (take 8 (drop pos (os.data (File (flushed s))))) \/
  mem < binary.Uint64 (take 8 (drop pos (os.data (File (flushed s))))) ->
  snd (Read_mem mem s pos) = Panic.
Proof.
  intros Hpos E Hc Hhdr Hmax.
  assert (Hc' : os.closed (File (flushed s)) = false)
    by now rewrite flushed_closed.
  unfold Read_mem. rewrite Flush_flushed, E.
  rewrite to_int64_small by lia.
  set (d := os.data (File (flushed s))) in *.
  assert (Hd : d = take pos d ++ take 8 (drop pos d) ++ drop 8 (drop pos d))
    by now rewrite !take_drop.
  assert (Hl : len (take 8 (drop pos d)) = 8)
    by (rewrite len_take, len_drop; lia).
  rewrite (os_ReadAt_within _ (make headerSizeBytes) _ _ _ pos Hc' Hd).
  - unfold enc_Uint64.
    replace ((maxAlloc <? binary.Uint64 (take 8 (drop pos d)))
             || (mem <? binary.Uint64 (take 8 (drop pos d)))) with true;
      [reflexivity|].
    symmetry. apply orb_true_iff.
    destruct Hmax as [H|H]; [left|right]; now apply Z.ltb_lt.
  - rewrite len_take. lia.
  - now rewrite Hl.
Qed.

(** C6, amended. [mem] is the number of bytes the runtime can still obtain.
    [Read] returns an error, and neither a value nor a crash, when the 8
    bytes of the header do not lie within the file. When the header can be
    read and holds a length [N] whose [N] bytes do not lie within the file,
    [Read] never returns a value, so never truncated data: it returns an
    error if [make] can allocate [N] bytes ([N] at most [maxAlloc] and at
    most [mem]), and the program dies in [make], before the payload is
    read, if it cannot. [ReadAt] of at least one byte returns an error
    together with a count below [len b] when the range does not lie within
    the file, and it never returns a count below [len b] without an error.
    The file is the one left by the flush that opens each call. *)
Theorem reads_beyond_the_file_fail (mem : Z) (s : store) (pos : Z)
  (b : list byte) (off : Z) :
  0 <= pos < two64 ->
  let d := os.data (File (flushed s)) in
  (len d < pos + 8 -> is_Err (snd (Read_mem mem s pos)) = true) /\
  (pos + 8 <= len d ->
   len d < pos + 8 + binary.Uint64 (take 8 (drop pos d)) ->
   (forall c, snd (Read_mem mem s pos) <> Ok c) /\
   (binary.Uint64 (take 8 (drop pos d)) <= maxAlloc ->
    binary.Uint64 (take 8 (drop pos d)) <= mem ->
    is_Err (snd (Read_mem mem s pos)) = true)) /\
  (pos < two63 -> flush_error s = None -> os.closed (File s) = false ->
   pos + 8 <= len d ->
   maxAlloc < binary.Uint64 (take 8 (drop pos d)) \/
   mem < binary.Uint64 (take 8 (drop pos d)) ->
   snd (Read_mem mem s pos) = Panic) /\
  (0 < len b -> off < 0 \/ len d < off + len b ->
   exists b' n e, snd (ReadAt s b off) = (b', n, Some e) /\ n < len b) /\
  (forall b' n e, snd (ReadAt s b off) = (b', n, e) -> n < len b -> e <> None) /\
  Read_mem maxAlloc s pos = Read s pos.
Proof.
  intros Hpos d. subst d. splits.
  - now apply Read_mem_header_beyond.
  - intros Hhdr Hlen.
    destruct (Read_mem_payload_beyond mem s pos Hpos Hhdr Hlen) as [H1 H2].
    now split.
  - intros Hp. apply Read_mem_panics. lia.
  - intros Hb Hoff.
    destruct (flush_error s) as [e|] eqn:E.
    + rewrite (ReadAt_flush_error _ _ _ _ E). simpl. now eauto 6.
    + rewrite (ReadAt_flush_ok _ _ _ E). simpl.
      now apply os_ReadAt_beyond.
  - intros b' n e H Hn.
    destruct (flush_error s) as [e0|] eqn:E.
    + rewrite (ReadAt_flush_error _ _ _ _ E) in H. simpl in H.
      inversion H; discriminate.
    + rewrite (ReadAt_flush_ok _ _ _ E) in H. simpl in H.
      exact (os_ReadAt_short _ _ _ _ _ _ H Hn).
  - apply Read_mem_maxAlloc.
Qed.

Lemma reads_beyond_the_file_fail_witness :
  is_Err (snd (Read_mem (2 ^ 30) (fst (Append (store_of empty_file) hello)) 13))
  = true /\
  is_Err (snd (Read_mem (2 ^ 30) (fst (Append (store_of empty_file) hello)) 1))
  = true /\
  snd (Read_mem (2 ^ 30) (fst (Append (store_of empty_file) hello)) 5) = Panic /\
  exists b' n e,
    snd (ReadAt (fst (Append (store_of empty_file) hello)) (make 4) 11)
    = (b', n, Some e) /\ n < len (make 4).
Proof.
  destruct (reads_beyond_the_file_fail (2 ^ 30)
              (fst (Append (store_of empty_file) hello)) 13 (make 4) 11)
    as (H1 & _ & _ & H4 & _); [evaluate|].
  destruct (reads_beyond_the_file_fail (2 ^ 30)
              (fst (Append (store_of empty_file) hello)) 1 (make 4) 11)
    as (_ & H2 & _); [evaluate|].
  destruct (reads_beyond_the_file_fail (2 ^ 30)
              (fst (Append (store_of empty_file) hello)) 5 (make 4) 11)
    as (_ & _ & H3 & _); [evaluate|].
  split; [apply H1; evaluate|].
  split; [apply H2; evaluate|].
  split; [apply H3; [evaluate ..|right; evaluate]|].
  apply H4; [evaluate|right; evaluate].
Defined.

(** ** C7: [Close] *)

(** C7. [Close] first flushes the write buffer. When the flush fails,
    [Close] returns the error of the flush and the handle is as it was, not
    closed by this call. When the flush succeeds, [Close] closes the handle
    and returns what closing returns; on an open handle that writes at the
    end of the file this leaves a closed file that holds every byte that
    was buffered. *)
Theorem Close_flushes_then_closes (s : store) :
  (forall e, flush_error s = Some e ->
     Close s = (flushed s, Some e) /\
     os.closed (File (fst (Close s))) = os.closed (File s)) /\
  (flush_error s = None ->
     Close s =
     ({| File := fst (os.Close (File (flushed s)));
         buf := buf (flushed s); size := size s |},
      snd (os.Close (File (flushed s))))) /\
  (wf_File (File s) -> flush_error s = None -> os.closed (File s) = false ->
     snd (Close s) = None /\
     os.closed (File (fst (Close s))) = true /\
     os.data (File (fst (Close s))) = contents s /\
     bufio.buf (buf (fst (Close s))) = []).
Proof.
  splits.
  - intros e E. rewrite (Close_flush_error _ _ E). simpl.
    split; [trivial|apply flushed_closed].
  - apply Close_flush_ok.
  - intros Hwf E Hc. rewrite (Close_flush_ok _ E). simpl.
    destruct (flushed_spec s Hwf) as (_ & _ & _ & _ & _ & Hnone).
    destruct (Hnone E) as [Hbuf Hdata].
    destruct (os_Close_spec (File (flushed s))) as (Hd & _ & _ & _ & Hopen & _).
    rewrite flushed_closed in Hopen. destruct (Hopen Hc) as [H1 H2].
    splits; trivial.
    + now rewrite Hd.
    + now rewrite Hbuf.
Qed.

Lemma Close_flushes_then_closes_witness :
  (Close (fst (Append (store_of full_disk_file) hello))
   = (flushed (fst (Append (store_of full_disk_file) hello)), Some ENOSPC) /\
   os.closed (File (fst (Close (fst (Append (store_of full_disk_file) hello)))))
   = false) /\
  (snd (Close (fst (Append (store_of empty_file) hello))) = None /\
   os.closed (File (fst (Close (fst (Append (store_of empty_file) hello)))))
   = true /\
   os.data (File (fst (Close (fst (Append (store_of empty_file) hello)))))
   = frame hello).
Proof.
  split.
  - destruct (Close_flushes_then_closes
                (fst (Append (store_of full_disk_file) hello))) as (H & _).
    apply (H ENOSPC). evaluate.
  - destruct (Close_flushes_then_closes
                (fst (Append (store_of empty_file) hello))) as (_ & _ & H).
    destruct H as (H1 & H2 & H3 & _); [evaluate ..|].
    splits; trivial.
Defined.

(** ** C8: [newStore] and reopening *)

Lemma newStore_store_of (f : os.File) :
  len (os.data f) <= maxInt64 -> os.linked f = true ->
  newStore f = Ok (store_of f).
Proof.
  intros Hm Hl. unfold newStore, os.Stat, store_of. rewrite Hl.
  pose proof (len_nonneg (os.data f)). unfold maxInt64, two63 in Hm.
  cbv beta iota zeta.
  rewrite to_int64_small by (unfold two63; lia).
  rewrite to_uint64_small by (unfold two64; lia).
  reflexivity.
Qed.

Lemma Append_Ok_pos (s s' : store) (r : list byte) (n pos : Z) :
  Append s r = (s', Ok (n, pos)) -> pos = size s.
Proof.
  unfold Append.
  destruct (binary.Write (File s) (buf s) _) as [[f1 b1] [e1|]];
    [discriminate|].
  destruct (bufio.Write f1 b1 r) as [[[f2 b2] w] [e2|]]; [discriminate|].
  intros H. now inversion H.
Qed.

(** The store never moves the offset of its handle. A handle opened on a
    file that has bytes already must therefore write at the end, as one
    opened with [O_APPEND] does; a handle at offset 0 puts the next frame
    over the first record, although [Append] returns the right position. *)
Example reopen_at_offset_0_overwrites :
  let s := fst (Close (fst (Append (store_of empty_file) hello))) in
  let s2 := store_of (os.OpenFile (File s) false) in
  snd (Append s2 bang) = Ok (9, 13) /\
  snd (Read (fst (Append s2 bang)) 0) = Ok bang /\
  snd (Read (fst (Append s2 bang)) 13) = Err EOF.
Proof. vm_compute. repeat split. Qed.

(** C8 fails for a handle that does not write at the end of the file. The
    store that holds ["hello"] is closed without error and the file opened
    again without [O_APPEND]; [newStore] gives the new store the size 13 and
    [Append] of ["!"] returns the position 13, but its frame goes to offset
    0: [Read 0], which returned ["hello"], now returns ["!"], and [Read 13]
    finds the end of the file. *)
Lemma reopen_without_append_loses_records :
  let s := fst (Append (store_of empty_file) hello) in
  let f2 := os.OpenFile (File (fst (Close s))) false in
  let s3 := fst (Append (store_of f2) bang) in
  consistent s /\
  snd (Read s 0) = Ok hello /\
  snd (Close s) = None /\
  newStore f2 = Ok (store_of f2) /\
  snd (Append (store_of f2) bang) = Ok (9, 13) /\
  snd (Read s3 0) = Ok bang /\
  snd (Read s3 13) = Err EOF /\
  contents (flushed s3) <> contents s ++ frame bang.
Proof. evaluate. Qed.

(** C8, amended. [newStore] fails with the error of the stat, and makes no
    store, when the stat fails; otherwise it makes a store on the file with
    an empty buffer and [size] the length of the file on disk. After a
    [Close] without error of a consistent store, a store opened on a new
    handle to the same file has the [size] of the closed one, and its next
    successful [Append] returns that position, whatever the mode of the
    handle. When the new handle writes at the end of the file, as one opened
    with [O_APPEND] does, the store resumes: the log is the one the closed
    store had, an [Append] for which the device has room succeeds and puts
    its frame right after it, the new record is read back at the position
    returned, and every record of the closed store is still read back at
    its position, so that none is lost or overwritten. *)
Theorem newStore_resumes (f : os.File) (s : store) (flagAppend : bool) :
  (forall fi e, os.Stat f = (fi, Some e) -> newStore f = Err e) /\
  (len (os.data f) <= maxInt64 -> os.linked f = true ->
   newStore f = Ok (store_of f) /\
   size (store_of f) = len (os.data f) /\
   bufio.Buffered (buf (store_of f)) = 0) /\
  (consistent s -> os.linked (File s) = true -> snd (Close s) = None ->
   let f2 := os.OpenFile (File (fst (Close s))) flagAppend in
   newStore f2 = Ok (store_of f2) /\
   size (store_of f2) = size s /\
   (forall r s3 n pos,
      Append (store_of f2) r = (s3, Ok (n, pos)) -> pos = size s) /\
   (flagAppend = true -> os.wpos f2 = len (os.data f2)) /\
   (os.wpos f2 = len (os.data f2) ->
    contents (store_of f2) = contents s /\
    consistent (store_of f2) /\
    (forall r s3 n pos,
       Append (store_of f2) r = (s3, Ok (n, pos)) ->
       n = 8 + len r /\ contents s3 = contents s ++ frame r) /\
    (forall r,
       len (contents s) + (8 + len r) <= os.quota (File s) ->
       exists s3,
         Append (store_of f2) r = (s3, Ok (8 + len r, size s)) /\
         contents s3 = contents s ++ frame r /\
         (len r <= maxAlloc -> Read s3 (size s) = (flushed s3, Ok r)) /\
         (forall pre r0 post,
            contents s = pre ++ frame r0 ++ post -> len r0 <= maxAlloc ->
            Read s3 (len pre) = (flushed s3, Ok r0))))).
Proof.
  splits.
  - intros fi e H. unfold newStore. now rewrite H.
  - intros Hm Hl. now rewrite (newStore_store_of f Hm Hl).
  - intros Hc Hl HC f2.
    pose proof Hc as (Hwf & Hb & Hinv).
    assert (E : flush_error s = None).
    { destruct (flush_error s) as [e|] eqn:E; [|trivial].
      rewrite (Close_flush_error _ _ E) in HC. discriminate. }
    destruct (flushed_spec s Hwf) as (_ & Hwf' & Hs & _ & _ & Hnone).
    destruct (Hnone E) as [_ Hdata].
    destruct (Close_fst s) as (_ & _ & Hd & Hq & _).
    assert (Hd2 : os.data f2 = contents s) by (unfold f2; simpl; congruence).
    assert (Hl2 : os.linked f2 = true).
    { unfold f2; simpl. rewrite (Close_flush_ok _ E). simpl.
      destruct (os_Close_spec (File (flushed s))) as (_ & _ & -> & _).
      destruct Hs as (_ & _ & -> & _). exact Hl. }
    assert (Hsz : size s = len (contents s)).
    { unfold size_invariant, bufio.Buffered in Hinv. unfold contents.
      now rewrite len_app. }
    assert (Hq2 : len (os.data f2) <= os.quota f2 /\ os.quota f2 <= maxInt64).
    { destruct Hwf' as (_ & Hq1 & Hm1). unfold f2; simpl.
      rewrite Hd, Hq. now split. }
    assert (Hquota : os.quota f2 = os.quota (File s)).
    { destruct Hs as (Hqs & _). unfold f2; simpl. now rewrite Hq. }
    assert (Ha2 : os.append f2 = flagAppend) by reflexivity.
    assert (Hcl2 : os.closed f2 = false) by reflexivity.
    clearbody f2.
    assert (Hsize2 : size (store_of f2) = size s)
      by (unfold store_of; simpl; now rewrite Hd2, Hsz).
    splits; trivial.
    + apply newStore_store_of; [lia|trivial].
    + intros r s3 n pos HA. apply Append_Ok_pos in HA. congruence.
    + intros ->. unfold os.wpos. now rewrite Ha2.
    + intros Hend.
      assert (Hwf2 : wf_File f2) by (unfold wf_File; now splits).
      pose proof (consistent_store_of f2 Hwf2) as Hc2.
      pose proof (consistent_wf _ Hc2) as Hw2.
      assert (Hcont2 : contents (store_of f2) = contents s)
        by (unfold contents, store_of; simpl; now rewrite app_nil_r).
      splits; trivial.
      * intros r s3 n pos HA.
        destruct (Append_Ok_inv _ _ _ _ _ Hw2 HA) as (-> & _ & _ & Hcont & _).
        split; [trivial|]. now rewrite Hcont, Hcont2.
      * intros r Hroom.
        destruct (Append_Ok (store_of f2) r Hw2 eq_refl) as (s3 & HA).
        { split; [exact Hcl2|]. cbn [File buf store_of].
          change (bufio.Buffered bufio.NewWriter) with 0.
          rewrite Hd2, Hquota. lia. }
        rewrite Hsize2 in HA. exists s3.
        destruct (Append_Ok_inv _ _ _ _ _ Hw2 HA)
          as (_ & _ & _ & Hcont & (Hf3 & _) & (Hq3 & Hc3 & _) & He3).
        rewrite Hcont2 in Hcont. cbn [File store_of] in Hq3, Hc3.
        assert (E3 : flush_error s3 = None).
        { apply flush_error_None; trivial. right. split; [congruence|].
          assert (L : len (contents s3) = len (contents s) + (8 + len r))
            by (rewrite Hcont, len_app, len_frame; lia).
          unfold contents at 1 in L. rewrite len_app in L.
          unfold bufio.Buffered. rewrite Hq3, Hquota. lia. }
        assert (Hcl3 : os.closed (File s3) = false) by congruence.
        splits; trivial.
        -- intros Hr. rewrite Hsz.
           apply Read_frame with (post := []); trivial.
           now rewrite app_nil_r.
        -- intros pre r0 post Hpre Hr0.
           apply Read_frame with (post := post ++ frame r); trivial.
           rewrite Hcont, Hpre. now rewrite <- !app_assoc.
Qed.

Lemma newStore_resumes_witness :
  newStore unlinked_file = Err ENOENT /\
  newStore empty_file = Ok (store_of empty_file) /\
  let s := fst (Append (fst (Append (store_of empty_file) hello)) bang) in
  let f2 := os.OpenFile (File (fst (Close s))) true in
  size (store_of f2) = size s /\
  exists s3,
    Append (store_of f2) large_record = (s3, Ok (8 + len large_record, size s)) /\
    contents s3 = contents s ++ frame large_record /\
    Read s3 (size s) = (flushed s3, Ok large_record) /\
    Read s3 0 = (flushed s3, Ok hello).
Proof.
  split.
  { destruct (newStore_resumes unlinked_file (store_of empty_file) true)
      as (H & _). apply (H 0). evaluate. }
  split.
  { destruct (newStore_resumes empty_file (store_of empty_file) true)
      as (_ & H & _). apply H; evaluate. }
  intros s f2.
  destruct (newStore_resumes empty_file s true) as (_ & _ & H).
  destruct H as (_ & H1 & _ & H2 & H3); [evaluate ..|].
  split; [exact H1|].
  destruct (H3 (H2 eq_refl)) as (_ & _ & _ & H4).
  destruct (H4 large_record) as (s3 & HA & Hc & Hr & Hold); [evaluate|].
  exists s3. splits; trivial.
  - apply Hr. evaluate.
  - apply (Hold [] hello (frame bang)); evaluate.
Defined.

(** ** Further properties of the store *)

(** *** A pending write error *)

Lemma store_eta (s : store) :
  {| File := File s; buf := buf s; size := size s |} = s.
Proof. now destruct s. Qed.

Lemma Flush_pending (f : os.File) (b : bufio.Writer) (e : error) :
  bufio.err b = Some e -> bufio.Flush f b = (f, b, Some e).
Proof. intros He. unfold bufio.Flush. now rewrite He. Qed.

Lemma Write_pending (f : os.File) (b : bufio.Writer) (p : list byte)
  (e : error) :
  bufio.err b = Some e -> bufio.Write f b p = (f, b, 0, Some e).
Proof.
  intros He. unfold bufio.Write, bufio.Write_fuel. simpl.
  rewrite He. simpl. rewrite andb_false_r. now rewrite He.
Qed.

(** The error [Flush] returns is the one the writer then holds. *)
Lemma Flush_err (f f' : os.File) (b b' : bufio.Writer) (e : option error) :
  bufio.Flush f b = (f', b', e) -> bufio.err b' = e.
Proof.
  unfold bufio.Flush.
  destruct (bufio.err b) as [e0|] eqn:He; [intros H; inversion H; congruence|].
  destruct (bufio.Buffered b =? 0); [intros H; inversion H; congruence|].
  destruct (os.Write f (bufio.buf b)) as [[f1 n] [x|]].
  - intros H; now inversion H.
  - destruct (n <? bufio.Buffered b); intros H; now inversion H.
Qed.

(** The error [Write] returns is the one the writer then holds. *)
Lemma Write_err (f f' : os.File) (b b' : bufio.Writer) (p : list byte)
  (nn : Z) (e : option error) :
  bufio.Write f b p = (f', b', nn, e) -> bufio.err b' = e.
Proof.
  unfold bufio.Write.
  destruct (bufio.Write_loop bufio.Write_fuel f b p 0) as [[[f1 b1] p1] nn1].
  destruct (bufio.err b1) as [x|] eqn:He; intros H; inversion H; subst; trivial.
Qed.

Lemma pending_error_calls (s : store) (e : error) :
  bufio.err (buf s) = Some e ->
  (forall r, Append s r = (s, Err e)) /\
  (forall pos, Read s pos = (s, Err e)) /\
  (forall b off, ReadAt s b off = (s, (b, 0, Some e))) /\
  Close s = (s, Some e).
Proof.
  intros He. splits.
  - intros r. unfold Append, binary.Write.
    rewrite (Write_pending _ _ _ _ He). now rewrite store_eta.
  - intros pos. unfold Read. rewrite (Flush_pending _ _ _ He).
    now rewrite store_eta.
  - intros b off. unfold ReadAt. rewrite (Flush_pending _ _ _ He).
    now rewrite store_eta.
  - unfold Close. rewrite (Flush_pending _ _ _ He). now rewrite store_eta.
Qed.

(** X1. Once the buffered writer holds an error, nothing works any more:
    every [Append], [Read] and [ReadAt] returns that error, [Close] returns
    it too and does not close the file, and none of them changes the
    store. *)
Theorem pending_error_fails_every_call (s : store) (e : error) :
  bufio.err (buf s) = Some e ->
  (forall r, Append s r = (s, Err e)) /\
  (forall pos, Read s pos = (s, Err e)) /\
  (forall b off, ReadAt s b off = (s, (b, 0, Some e))) /\
  Close s = (s, Some e) /\
  (forall cs, after_all s cs = s).
Proof.
  intros He.
  destruct (pending_error_calls s e He) as (HA & HR & HRA & HC).
  splits; trivial.
  induction cs as [|c cs IH]; simpl; [trivial|].
  replace (after s c) with s; [exact IH|].
  destruct c; simpl; now rewrite ?HA, ?HR, ?HRA, ?HC.
Qed.

Lemma pending_error_fails_every_call_witness :
  Append poisoned_store hello = (poisoned_store, Err ENOSPC) /\
  Close poisoned_store = (poisoned_store, Some ENOSPC).
Proof.
  destruct (pending_error_fails_every_call poisoned_store ENOSPC)
    as (H1 & _ & _ & H2 & _); [evaluate|].
  split; [apply H1|exact H2].
Defined.

(** X2. A failed [Append] leaves its error pending in the writer, so that
    every later [Append] and [Read] fails with the same error and [Close]
    returns it, leaving the handle as the failed call left it. *)
Theorem failed_Append_is_final (s s' : store) (r : list byte) (e : error) :
  Append s r = (s', Err e) ->
  bufio.err (buf s') = Some e /\
  (forall r', Append s' r' = (s', Err e)) /\
  (forall pos, Read s' pos = (s', Err e)) /\
  Close s' = (s', Some e) /\
  os.closed (File (fst (Close s'))) = os.closed (File s').
Proof.
  intros HA.
  assert (He : bufio.err (buf s') = Some e).
  { revert HA. unfold Append, binary.Write.
    destruct (bufio.Write (File s) (buf s) _) as [[[f1 b1] n1] e1] eqn:H1.
    apply Write_err in H1. destruct e1 as [x|].
    - intros H; inversion H; subst. exact H1.
    - destruct (bufio.Write f1 b1 r) as [[[f2 b2] n2] e2] eqn:H2.
      apply Write_err in H2. destruct e2 as [x|]; intros H; inversion H; subst.
      exact H2. }
  destruct (pending_error_calls s' e He) as (H1 & H2 & _ & H3).
  splits; trivial. now rewrite H3.
Qed.

Lemma failed_Append_is_final_witness :
  Append poisoned_store bang = (poisoned_store, Err ENOSPC) /\
  Close poisoned_store = (poisoned_store, Some ENOSPC).
Proof.
  destruct (failed_Append_is_final (store_of full_disk_file) poisoned_store
              large_record ENOSPC) as (_ & H1 & _ & H2 & _); [evaluate|].
  split; [apply H1|exact H2].
Defined.

(** *** Reading twice *)

(** A second flush right after a flush does nothing and returns the same
    error. *)
Lemma Flush_idem (f f' : os.File) (b b' : bufio.Writer) (e : option error) :
  bufio.Flush f b = (f', b', e) -> bufio.Flush f' b' = (f', b', e).
Proof.
  intros H. pose proof (Flush_err _ _ _ _ _ H) as He.
  destruct e as [x|]; [now apply Flush_pending|].
  pose proof (Flush_nil _ _ _ _ _ H He) as Hb.
  unfold bufio.Flush, bufio.Buffered. now rewrite He, Hb.
Qed.

Lemma Flush_of_flushed (s : store) :
  bufio.Flush (File (flushed s)) (buf (flushed s)) =
  (File (flushed s), buf (flushed s), flush_error s).
Proof. exact (Flush_idem _ _ _ _ _ (Flush_flushed s)). Qed.

Lemma flushed_flushed (s : store) : flushed (flushed s) = flushed s.
Proof.
  unfold flushed at 1. rewrite Flush_of_flushed, size_flushed.
  rewrite <- (size_flushed s). apply store_eta.
Qed.

Lemma Read_of_flushed (s : store) (pos : Z) :
  Read (flushed s) pos = Read s pos.
Proof.
  unfold Read. now rewrite Flush_of_flushed, Flush_flushed, size_flushed.
Qed.

Lemma ReadAt_of_flushed (s : store) (b : list byte) (off : Z) :
  ReadAt (flushed s) b off = ReadAt s b off.
Proof.
  unfold ReadAt. now rewrite Flush_of_flushed, Flush_flushed, size_flushed.
Qed.

(** X3. Reading is repeatable: the store a [Read] or a [ReadAt] leaves is
    not changed by reading again, and the same call on it returns the same
    result, be it bytes, an error or a panic; in particular an error of the
    flush comes back on every later read. *)
Theorem reads_are_repeatable (s s1 : store) (pos : Z) (res : result (list byte)) :
  Read s pos = (s1, res) ->
  Read s1 pos = (s1, res) /\
  (forall pos', fst (Read s1 pos') = s1 /\ snd (Read s1 pos') = snd (Read s pos')) /\
  (forall b off, ReadAt s1 b off = (s1, snd (ReadAt s b off))).
Proof.
  intros H.
  assert (Hs : s1 = flushed s) by (rewrite <- (Read_fst s pos); now rewrite H).
  subst s1. splits.
  - now rewrite Read_of_flushed.
  - intros pos'. rewrite Read_of_flushed. split; [apply Read_fst|trivial].
  - intros b off. rewrite ReadAt_of_flushed.
    rewrite <- (ReadAt_fst s b off). now destruct (ReadAt s b off).
Qed.

Lemma reads_are_repeatable_witness :
  Read (fst (Read (fst (Append (store_of empty_file) hello)) 0)) 0
  = (fst (Read (fst (Append (store_of empty_file) hello)) 0), Ok hello).
Proof.
  destruct (reads_are_repeatable (fst (Append (store_of empty_file) hello))
              (fst (Read (fst (Append (store_of empty_file) hello)) 0))
              0 (Ok hello)) as (H & _); [evaluate|exact H].
Defined.

(** *** [Read] through [ReadAt] *)

Lemma ReadAt_None_flush (s s1 : store) (b b' : list byte) (off n : Z) :
  ReadAt s b off = (s1, (b', n, None)) ->
  flush_error s = None /\ s1 = flushed s /\
  os.ReadAt (File (flushed s)) b off = (b', n, None).
Proof.
  intros H.
  destruct (flush_error s) as [e|] eqn:E.
  - rewrite (ReadAt_flush_error _ _ _ _ E) in H. inversion H.
  - rewrite (ReadAt_flush_ok _ _ _ E) in H. inversion H as [[H1 H2]].
    now rewrite H2.
Qed.

(** A positional read without error returns as many bytes as the slice
    has. *)
Lemma os_ReadAt_success_count (f : os.File) (b b' : list byte) (off n : Z) :
  os.ReadAt f b off = (b', n, None) -> n = len b /\ len b' = len b.
Proof.
  unfold os.ReadAt. intros H.
  destruct (Z.ltb_spec off 0); [discriminate|].
  destruct b as [|a b]; [inversion H; now split|].
  destruct (os.closed f); [discriminate|].
  set (got := take (len (a :: b)) (drop off (os.data f))) in *.
  destruct (Z.ltb_spec (len got) (len (a :: b))) as [|Hge]; [discriminate|].
  inversion H; subst b' n; clear H.
  pose proof (len_nonneg (a :: b)) as Hab.
  assert (Hgot : len got = len (a :: b))
    by (unfold got in *; rewrite len_take in *; lia).
  rewrite Hgot, drop_all, app_nil_r by lia. now split.
Qed.

(** X4. [Read] is two raw reads: when [ReadAt] of 8 bytes at [pos] succeeds
    with the header [h], the header holds a length [N] that can be
    allocated, and [ReadAt] of [N] bytes at [pos + 8] succeeds with the
    bytes [c], then [Read pos] returns [c]; the second raw read finds the
    buffer already flushed and leaves the store as the first one did. *)
Theorem Read_is_two_ReadAt (s s1 s2 : store) (pos : Z) (h c : list byte)
  (n1 n2 : Z) :
  0 <= pos -> pos + 8 < two63 ->
  ReadAt s (make headerSizeBytes) pos = (s1, (h, n1, None)) ->
  binary.Uint64 h <= maxAlloc ->
  ReadAt s1 (make (binary.Uint64 h)) (pos + 8) = (s2, (c, n2, None)) ->
  Read s pos = (s1, Ok c) /\ s2 = s1 /\ n1 = 8 /\ n2 = len c.
Proof.
  intros Hpos Hpos8 H1 HN H2.
  destruct (ReadAt_None_flush _ _ _ _ _ _ H1) as (E & -> & R1).
  destruct (ReadAt_None_flush _ _ _ _ _ _ H2) as (_ & -> & R2).
  rewrite flushed_flushed in *.
  destruct (os_ReadAt_success_count _ _ _ _ _ R1) as [Hn1 _].
  destruct (os_ReadAt_success_count _ _ _ _ _ R2) as [Hn2 Hc].
  rewrite len_make in Hn1.
  change (Z.max 0 headerSizeBytes) with 8 in Hn1.
  splits; trivial; try lia.
  unfold Read. rewrite Flush_flushed, E.
  rewrite to_int64_small by lia. rewrite R1.
  unfold enc_Uint64.
  destruct (Z.ltb_spec maxAlloc (binary.Uint64 h)); [lia|].
  unfold headerSizeBytes.
  rewrite to_uint64_small by (unfold two63, two64 in *; lia).
  rewrite to_int64_small by lia. rewrite R2.
  rewrite <- (size_flushed s). now rewrite store_eta.
Qed.

Lemma Read_is_two_ReadAt_witness :
  Read (fst (Append (store_of empty_file) hello)) 0
  = (flushed (fst (Append (store_of empty_file) hello)), Ok hello).
Proof.
  destruct (Read_is_two_ReadAt (fst (Append (store_of empty_file) hello))
              (flushed (fst (Append (store_of empty_file) hello)))
              (flushed (fst (Append (store_of empty_file) hello)))
              0 (binary.PutUint64 5) hello 8 5) as (H & _);
    [evaluate ..|exact H].
Defined.

(** *** A sequence of appends *)

Lemma log_bytes_cons (r : list byte) (rs : list (list byte)) :
  log_bytes (r :: rs) = frame r ++ log_bytes rs.
Proof. reflexivity. Qed.

Lemma log_bytes_app (rs1 rs2 : list (list byte)) :
  log_bytes (rs1 ++ rs2) = log_bytes rs1 ++ log_bytes rs2.
Proof. unfold log_bytes. now rewrite map_app, concat_app. Qed.

Lemma size_contents (s : store) : consistent s -> size s = len (contents s).
Proof.
  intros (_ & _ & Hinv). unfold size_invariant, bufio.Buffered in Hinv.
  unfold contents. now rewrite len_app.
Qed.

(** What a sequence of successful appends leaves. *)
Lemma append_all_inv (rs : list (list byte)) :
  forall (s s' : store) (nps : list (Z * Z)),
  consistent s -> bufio.err (buf s) = None ->
  append_all s rs = (s', Some nps) ->
  contents s' = contents s ++ log_bytes rs /\
  consistent s' /\ bufio.err (buf s') = None /\
  same_handle (File s) (File s') /\
  length nps = length rs.
Proof.
  induction rs as [|r rs IH]; intros s s' nps Hc He H; simpl in H.
  - inversion H; subst. unfold log_bytes; simpl. rewrite app_nil_r.
    splits; trivial. apply same_handle_refl.
  - destruct (Append s r) as [s1 [[n pos]|e|]] eqn:HA; try discriminate.
    destruct (append_all s1 rs) as [s2 [nps'|]] eqn:HR; try discriminate.
    inversion H; subst s' nps; clear H.
    destruct (Append_Ok_inv _ _ _ _ _ (consistent_wf s Hc) HA)
      as (_ & _ & _ & Hcont & _ & Hs1 & He1).
    assert (Hc1 : consistent s1).
    { pose proof (after_consistent s (CallAppend r) Hc) as H.
      simpl in H. rewrite HA in H. now apply H. }
    destruct (IH _ _ _ Hc1 He1 HR) as (Hcont2 & Hc2 & He2 & Hs2 & Hl).
    splits; trivial.
    + now rewrite Hcont2, Hcont, log_bytes_cons, <- app_assoc.
    + now apply same_handle_trans with (File s1).
    + simpl. now rewrite Hl.
Qed.

(** The position of the [i]-th record of a sequence that starts at [p]. *)
Lemma positions_from_nth (rs : list (list byte)) :
  forall (i : nat) (p pos : Z),
  nth_error (positions_from p rs) i = Some pos ->
  pos = p + len (log_bytes (firstn i rs)).
Proof.
  induction rs as [|r rs IH]; intros i p pos H.
  - destruct i; discriminate.
  - destruct i as [|i]; simpl in H.
    + inversion H. unfold log_bytes; simpl. change (len (@nil byte)) with 0. lia.
    + apply IH in H. simpl firstn.
      rewrite log_bytes_cons, len_app, len_frame. lia.
Qed.

(** X5. The layout of the log: records appended with success to a store
    opened on an empty file make a log that is exactly their frames, back to
    back and in order, each an 8-byte header followed by the record; once a
    read or [Close] has flushed the buffer, these are the bytes of the file,
    and [size] is their number. *)
Theorem log_is_the_frames_back_to_back (f : os.File) (s s' : store)
  (rs : list (list byte)) (nps : list (Z * Z)) :
  wf_File f -> os.data f = [] ->
  newStore f = Ok s ->
  append_all s rs = (s', Some nps) ->
  contents s' = log_bytes rs /\
  size s' = len (log_bytes rs) /\
  (flush_error s' = None ->
   os.data (File (flushed s')) = log_bytes rs /\
   bufio.buf (buf (flushed s')) = []).
Proof.
  intros Hf Hd Hn HA.
  pose proof (newStore_consistent f s Hf Hn) as Hc.
  rewrite (newStore_inv f s Hf Hn) in *.
  destruct (append_all_inv rs _ _ _ Hc eq_refl HA) as (Hcont & Hc' & _).
  unfold contents at 2 in Hcont. simpl in Hcont. rewrite Hd in Hcont.
  simpl in Hcont.
  splits; trivial.
  - now rewrite (size_contents s' Hc'), Hcont.
  - intros E. destruct Hc' as (Hf' & _).
    destruct (flushed_spec s' Hf') as (_ & _ & _ & _ & _ & Hnone).
    destruct (Hnone E) as [Hb Hdata]. rewrite Hb. split; [congruence|trivial].
Qed.

Lemma log_is_the_frames_back_to_back_witness :
  contents (fst (append_all (store_of empty_file) [hello; []; large_record; bang]))
  = log_bytes [hello; []; large_record; bang].
Proof.
  destruct (log_is_the_frames_back_to_back empty_file (store_of empty_file)
              (fst (append_all (store_of empty_file)
                      [hello; []; large_record; bang]))
              [hello; []; large_record; bang]
              [(13, 0); (8, 13); (5008, 21); (9, 5029)])
    as (H & _); [evaluate ..|exact H].
Defined.

(** X6. Every record of a sequence of successful appends can be read back
    afterwards at the position its [Append] returned, the first as well as
    the last: later appends leave earlier records alone. The read needs its
    flush to succeed and the record to be a slice the runtime can allocate. *)
Theorem Read_any_appended_record (s s' : store) (rs : list (list byte))
  (nps : list (Z * Z)) (i : nat) (r : list byte) (n pos : Z) :
  consistent s -> bufio.err (buf s) = None ->
  append_all s rs = (s', Some nps) ->
  has_room (File s') (bufio.Buffered (buf s')) ->
  nth_error rs i = Some r ->
  nth_error nps i = Some (n, pos) ->
  len r <= maxAlloc ->
  Read s' pos = (flushed s', Ok r).
Proof.
  intros Hc He HA Hroom Hr Hnp Hmax.
  destruct (append_all_positions rs s s' nps (consistent_wf s Hc) HA) as [_ Hpos].
  destruct (append_all_inv rs _ _ _ Hc He HA) as (Hcont & Hc' & He' & _).
  assert (Hp : nth_error (positions_from (size s) rs) i = Some pos).
  { rewrite <- Hpos. rewrite nth_error_map, Hnp. reflexivity. }
  apply positions_from_nth in Hp.
  destruct (nth_error_split rs i Hr) as (l1 & l2 & Hrs & Hl).
  assert (Hfirst : firstn i rs = l1).
  { rewrite Hrs, <- Hl. rewrite firstn_app, Nat.sub_diag, firstn_all. simpl.
    apply app_nil_r. }
  rewrite Hfirst, (size_contents s Hc), <- len_app in Hp. subst pos.
  destruct Hc' as (Hf' & _).
  apply Read_frame with (post := log_bytes l2); trivial.
  - apply flush_error_None; auto.
  - now destruct Hroom.
  - rewrite Hcont, Hrs, log_bytes_app, log_bytes_cons.
    now rewrite <- !app_assoc.
Qed.

Lemma Read_any_appended_record_witness :
  Read (fst (append_all (store_of empty_file) [hello; []; large_record; bang])) 0
  = (flushed (fst (append_all (store_of empty_file)
                     [hello; []; large_record; bang])), Ok hello).
Proof.
  apply (Read_any_appended_record (store_of empty_file) _
           [hello; []; large_record; bang]
           [(13, 0); (8, 13); (5008, 21); (9, 5029)] 0%nat hello 13 0);
    evaluate.
Defined.

(** *** The format can be decoded in one way only *)

Lemma app_same_len {A} (a b c d : list A) :
  a ++ b = c ++ d -> len a = len c -> a = c /\ b = d.
Proof.
  intros H Hl.
  assert (Ha : a = c).
  { rewrite <- (take_app_exact a b), H, Hl. apply take_app_exact. }
  subst c. split; [trivial|]. now apply app_inv_head in H.
Qed.

Lemma frame_inj_app (r1 r2 x y : list byte) :
  len r1 < two64 -> len r2 < two64 ->
  frame r1 ++ x = frame r2 ++ y -> r1 = r2 /\ x = y.
Proof.
  intros H1 H2 H. unfold frame in H. rewrite <- !app_assoc in H.
  apply app_same_len in H; [|now rewrite !len_PutUint64].
  destruct H as [Hh H].
  apply (f_equal binary.Uint64) in Hh.
  rewrite !Uint64_PutUint64 in Hh by apply to_uint64_range.
  pose proof (len_nonneg r1). pose proof (len_nonneg r2).
  rewrite !to_uint64_small in Hh by lia.
  now apply app_same_len in H.
Qed.

(** X7. The log determines its records: two sequences of records, each
    record shorter than 2^64 bytes, that make the same bytes of frames are
    the same sequence, and a single frame gives back its record. No
    terminator or checksum is needed to find the record boundaries. *)
Theorem log_bytes_inj (rs1 rs2 : list (list byte)) :
  Forall (fun r => len r < two64) rs1 ->
  Forall (fun r => len r < two64) rs2 ->
  log_bytes rs1 = log_bytes rs2 -> rs1 = rs2.
Proof.
  intros F1. revert rs2.
  induction F1 as [|r1 rs1 Hr1 F1 IH]; intros rs2 F2 H.
  - destruct F2 as [|r2 rs2 Hr2 F2]; [trivial|].
    apply (f_equal len) in H.
    rewrite log_bytes_cons, len_app, len_frame in H.
    change (len (log_bytes [])) with 0 in H.
    pose proof (len_nonneg r2). pose proof (len_nonneg (log_bytes rs2)). lia.
  - destruct F2 as [|r2 rs2 Hr2 F2].
    + apply (f_equal len) in H.
      rewrite log_bytes_cons, len_app, len_frame in H.
      change (len (log_bytes [])) with 0 in H.
      pose proof (len_nonneg r1). pose proof (len_nonneg (log_bytes rs1)). lia.
    + rewrite !log_bytes_cons in H.
      apply frame_inj_app in H; trivial. destruct H as [-> H].
      f_equal. now apply IH.
Qed.

Lemma log_bytes_inj_witness : [hello; []; bang] = [hello; []; bang].
Proof.
  apply (log_bytes_inj [hello; []; bang] [hello; []; bang]).
  - repeat constructor; evaluate.
  - repeat constructor; evaluate.
  - reflexivity.
Defined.

(** *** Nothing written is ever changed *)

Lemma app_eq_prefix {A} (a b c d : list A) :
  a ++ b = c ++ d -> len b <= len d -> exists t, a = c ++ t.
Proof.
  intros H Hl. apply app_eq_app in H.
  destruct H as [l [[Ha _]|[Hc Hb]]]; [now exists l|].
  assert (l = []).
  { apply len_zero_nil. apply (f_equal len) in Hb. rewrite len_app in Hb.
    pose proof (len_nonneg l). lia. }
  subst l. exists []. rewrite app_nil_r in *. now subst.
Qed.

Lemma Flush_data_extends (f f' : os.File) (b b' : bufio.Writer)
  (e : option error) :
  wf_File f -> bufio.Flush f b = (f', b', e) ->
  exists t, os.data f' = os.data f ++ t.
Proof.
  intros Hwf H.
  destruct (Flush_spec _ _ _ _ _ Hwf H) as (Hd & _ & _ & Hl & _).
  exact (app_eq_prefix _ _ _ _ Hd Hl).
Qed.

Lemma Write_loop_data_extends (fuel : nat) :
  forall (f f' : os.File) (b b' : bufio.Writer) (p p' : list byte) (nn nn' : Z),
  wf_File f ->
  bufio.Write_loop fuel f b p nn = (f', b', p', nn') ->
  exists t, os.data f' = os.data f ++ t.
Proof.
  induction fuel as [|fuel IH]; intros f f' b b' p p' nn nn' Hwf H; simpl in H.
  { inversion H; subst. exists []. now rewrite app_nil_r. }
  destruct ((bufio.Available b <? len p) && is_nil (bufio.err b));
    [|inversion H; subst; exists []; now rewrite app_nil_r].
  destruct (bufio.Buffered b =? 0).
  - destruct (os.Write f p) as [[f1 n] e] eqn:HW.
    destruct (os_Write_spec _ _ _ _ _ Hwf HW) as (_ & Hd & Hwf1 & _).
    apply IH in H; trivial. destruct H as [t Ht].
    exists (take n p ++ t). now rewrite Ht, Hd, app_assoc.
  - destruct (bufio.Flush f _) as [[f1 b2] e] eqn:HF.
    destruct (Flush_spec _ _ _ _ _ Hwf HF) as (_ & Hwf1 & _).
    destruct (Flush_data_extends _ _ _ _ _ Hwf HF) as [t1 Ht1].
    apply IH in H; trivial. destruct H as [t Ht].
    exists (t1 ++ t). now rewrite Ht, Ht1, app_assoc.
Qed.

Lemma Write_data_extends (f f' : os.File) (b b' : bufio.Writer)
  (p : list byte) (nn : Z) (e : option error) :
  wf_File f -> bufio.Write f b p = (f', b', nn, e) ->
  exists t, os.data f' = os.data f ++ t.
Proof.
  intros Hwf H. unfold bufio.Write in H.
  destruct (bufio.Write_loop bufio.Write_fuel f b p 0) as [[[f1 b1] p1] nn1] eqn:HL.
  apply Write_loop_data_extends in HL; trivial.
  destruct (bufio.err b1); inversion H; subst; exact HL.
Qed.

(** One call: the log grows at its end or stays, and so does the file. *)
Lemma after_extends (s : store) (c : call) :
  wf s ->
  (exists t, contents (after s c) = contents s ++ t) /\
  (exists u, os.data (File (after s c)) = os.data (File s) ++ u).
Proof.
  intros (Hwf & Hb & _).
  assert (Hflush : (exists t, contents (flushed s) = contents s ++ t) /\
                   (exists u, os.data (File (flushed s)) = os.data (File s) ++ u)).
  { destruct (flushed_spec s Hwf) as (Hc & _). split.
    - exists []. now rewrite app_nil_r.
    - exact (Flush_data_extends _ _ _ _ _ Hwf (Flush_flushed s)). }
  destruct c as [r|pos|b off|]; simpl.
  - unfold Append. rewrite binary_Write_eq.
    destruct (bufio.Write (File s) (buf s) _) as [[[f1 b1] n1] e1] eqn:H1.
    destruct (bufio.Write f1 b1 r) as [[[f2 b2] n2] e2] eqn:H2.
    destruct (Write_spec _ _ _ _ _ _ _ Hwf Hb H1) as (_ & Hd1 & Hwf1 & _ & Hb1 & _).
    destruct (Write_spec _ _ _ _ _ _ _ Hwf1 Hb1 H2) as (_ & Hd2 & _).
    destruct (Write_data_extends _ _ _ _ _ _ _ Hwf H1) as [u1 Hu1].
    destruct (Write_data_extends _ _ _ _ _ _ _ Hwf1 H2) as [u2 Hu2].
    simpl. destruct e1 as [x|]; simpl.
    + unfold contents; simpl. split; [|now exists u1].
      eexists. rewrite Hd1, app_assoc. reflexivity.
    + rewrite H2. destruct e2 as [x|]; unfold contents; simpl.
      * split; [|exists (u1 ++ u2); now rewrite Hu2, Hu1, app_assoc].
        eexists. rewrite Hd2, app_assoc, Hd1, <- !app_assoc. reflexivity.
      * split; [|exists (u1 ++ u2); now rewrite Hu2, Hu1, app_assoc].
        eexists. rewrite Hd2, app_assoc, Hd1, <- !app_assoc. reflexivity.
  - now rewrite Read_fst.
  - now rewrite ReadAt_fst.
  - destruct (Close_fst s) as (_ & Hbuf & Hd & _).
    unfold contents in *. rewrite Hbuf, Hd. exact Hflush.
Qed.

(** X8. The store only ever appends: after any sequence of calls on a
    well-formed store, failed ones included, the bytes that were in the file
    are still its first bytes, and the bytes of the log (the file followed
    by the buffer) are still the first bytes of the log. [Read], [ReadAt]
    and [Close] leave the bytes of the log exactly as they were. *)
Theorem store_only_appends (s : store) (cs : list call) :
  wf s ->
  (exists t, contents (after_all s cs) = contents s ++ t) /\
  (exists u, os.data (File (after_all s cs)) = os.data (File s) ++ u) /\
  (forall pos, contents (fst (Read s pos)) = contents s) /\
  (forall b off, contents (fst (ReadAt s b off)) = contents s) /\
  contents (fst (Close s)) = contents s.
Proof.
  intros Hwf.
  assert (Hseq : (exists t, contents (after_all s cs) = contents s ++ t) /\
                 (exists u, os.data (File (after_all s cs))
                            = os.data (File s) ++ u)).
  { revert s Hwf. induction cs as [|c cs IH]; intros s Hwf; simpl.
    - split; exists []; now rewrite app_nil_r.
    - destruct (after_extends s c Hwf) as [[t1 Ht1] [u1 Hu1]].
      destruct (IH (after s c) (after_wf s c Hwf)) as [[t Ht] [u Hu]].
      change (after_all s (c :: cs)) with (after_all (after s c) cs).
      split.
      + exists (t1 ++ t). now rewrite Ht, Ht1, app_assoc.
      + exists (u1 ++ u). now rewrite Hu, Hu1, app_assoc. }
  destruct Hseq as [H1 H2]. destruct Hwf as (Hf & _).
  destruct (flushed_spec s Hf) as (Hc & _).
  splits; trivial.
  - intros pos. now rewrite Read_fst.
  - intros b off. now rewrite ReadAt_fst.
  - destruct (Close_fst s) as (_ & Hbuf & Hd & _).
    unfold contents in *. now rewrite Hbuf, Hd.
Qed.

Lemma store_only_appends_witness :
  exists u,
    os.data (File (after_all (fst (Append (store_of empty_file) hello))
                     [CallRead 0; CallAppend large_record; CallReadAt (make 4) 2;
                      CallClose; CallAppend bang; CallRead 0]))
    = os.data (File (fst (Append (store_of empty_file) hello))) ++ u.
Proof.
  destruct (store_only_appends (fst (Append (store_of empty_file) hello))
              [CallRead 0; CallAppend large_record; CallReadAt (make 4) 2;
               CallClose; CallAppend bang; CallRead 0])
    as (_ & H & _); [evaluate|exact H].
Defined.

(** *** After [Close] *)

Lemma Flush_empty (f : os.File) (b : bufio.Writer) :
  bufio.err b = None -> bufio.buf b = [] -> bufio.Flush f b = (f, b, None).
Proof.
  intros He Hb. unfold bufio.Flush, bufio.Buffered. now rewrite He, Hb.
Qed.

(** What a [Close] without error leaves: the handle was open and is now
    closed, the buffer is empty and holds no error. *)
Lemma Close_None_inv (s s1 : store) :
  Close s = (s1, None) ->
  flush_error s = None /\
  os.closed (File s) = false /\ os.closed (File s1) = true /\
  os.data (File s1) = os.data (File (flushed s)) /\
  os.linked (File s1) = os.linked (File (flushed s)) /\
  bufio.err (buf s1) = None /\ bufio.buf (buf s1) = [] /\
  size s1 = size s.
Proof.
  intros H.
  destruct (flush_error s) as [e|] eqn:E;
    [rewrite (Close_flush_error _ _ E) in H; inversion H|].
  rewrite (Close_flush_ok _ E) in H. injection H as Hs He. subst s1.
  pose proof (Flush_err _ _ _ _ _ (Flush_flushed s)) as Herr. rewrite E in Herr.
  pose proof (Flush_nil _ _ _ _ _ (Flush_flushed s) Herr) as Hbuf.
  destruct (os_Close_spec (File (flushed s))) as (Hd & _ & Hl & _ & Hopen & Hcl).
  assert (Hc : os.closed (File (flushed s)) = false).
  { destruct (os.closed (File (flushed s))) eqn:C; [|trivial].
    rewrite (Hcl eq_refl) in He. discriminate. }
  destruct (Hopen Hc) as [Hc1 _].
  simpl. rewrite <- (flushed_closed s). splits; trivial.
Qed.

Lemma Read_frame_on_disk (s : store) (pre r post : list byte) :
  bufio.err (buf s) = None -> bufio.buf (buf s) = [] ->
  os.closed (File s) = false ->
  os.data (File s) = pre ++ frame r ++ post ->
  len (os.data (File s)) <= maxInt64 -> len r <= maxAlloc ->
  Read s (len pre) = (s, Ok r).
Proof.
  intros He Hb Hc Hd Hm Hr.
  pose proof (len_nonneg pre) as Hpre. pose proof (len_nonneg r) as Hr0.
  pose proof (len_nonneg post) as Hpost.
  rewrite Hd, !len_app, len_frame in Hm. unfold maxInt64, two63 in Hm.
  unfold Read. rewrite (Flush_empty _ _ He Hb).
  rewrite to_int64_small by (unfold two63; lia).
  unfold frame in Hd. rewrite <- app_assoc in Hd.
  rewrite (os_ReadAt_within _ _ _ _ _ _ Hc Hd eq_refl)
    by (unfold headerSizeBytes; now rewrite len_make, len_PutUint64).
  unfold enc_Uint64.
  rewrite Uint64_PutUint64 by apply to_uint64_range.
  rewrite to_uint64_small by (unfold two64; lia).
  destruct (Z.ltb_spec maxAlloc (len r)); [lia|].
  unfold headerSizeBytes.
  rewrite to_uint64_small by (unfold two64; lia).
  rewrite to_int64_small by (unfold two63; lia).
  rewrite app_assoc in Hd.
  rewrite (os_ReadAt_within _ (make (len r)) _ r post (len pre + 8) Hc Hd).
  - now rewrite store_eta.
  - now rewrite len_app, len_PutUint64.
  - rewrite len_make. lia.
Qed.

(** X9. Records outlive the store: after a [Close] without error, a store
    opened by [newStore] on a new handle to the same file, whether that
    handle was opened with [O_APPEND] or not, reads every record of the
    closed store at its old position, and reading does not change the new
    store. *)
Theorem records_survive_reopen (s s2 : store) (pre r post : list byte)
  (flagAppend : bool) :
  consistent s ->
  snd (Close s) = None ->
  contents s = pre ++ frame r ++ post ->
  len r <= maxAlloc ->
  newStore (os.OpenFile (File (fst (Close s))) flagAppend) = Ok s2 ->
  Read s2 (len pre) = (s2, Ok r).
Proof.
  intros Hc HC Hcont Hr Hn.
  destruct (Close s) as [s1 e] eqn:HCl. simpl in HC, Hn. subst e.
  destruct (Close_None_inv _ _ HCl) as (E & _ & _ & Hd & Hl & _).
  pose proof Hc as (Hwf & _).
  destruct (flushed_spec s Hwf) as (_ & Hwf' & _ & _ & _ & Hnone).
  destruct (Hnone E) as [_ Hdata].
  set (f2 := os.OpenFile (File s1) flagAppend) in *.
  assert (Hd2 : os.data f2 = pre ++ frame r ++ post).
  { change (os.data f2) with (os.data (File s1)). now rewrite Hd, Hdata. }
  assert (Hm2 : len (os.data f2) <= maxInt64).
  { destruct Hwf' as (_ & Hq & Hm).
    change (os.data f2) with (os.data (File s1)). rewrite Hd. lia. }
  assert (Hs2 : s2 = store_of f2).
  { destruct (os.linked f2) eqn:L.
    - rewrite (newStore_store_of f2 Hm2 L) in Hn. now inversion Hn.
    - unfold newStore, os.Stat in Hn. rewrite L in Hn. discriminate. }
  subst s2. now apply Read_frame_on_disk with (post := post).
Qed.

Lemma records_survive_reopen_witness :
  Read (store_of (os.OpenFile (File closed_store) false)) 0
  = (store_of (os.OpenFile (File closed_store) false), Ok hello).
Proof.
  apply (records_survive_reopen (fst (Append (store_of empty_file) hello))
           (store_of (os.OpenFile (File closed_store) false))
           [] hello [] false); evaluate.
Defined.

(** X10. After a [Close] without error the store is of no use for reading:
    every [Read] and every [ReadAt] into a slice that is not empty returns
    an error, [ErrClosed] unless the offset is negative, and a second
    [Close] returns [ErrClosed]; none of these changes the store. *)
Theorem closed_store_cannot_be_read (s s1 : store) :
  Close s = (s1, None) ->
  (forall pos,
     Read s1 pos =
     (s1, Err (if to_int64 pos <? 0 then ErrNegativeOffset else ErrClosed))) /\
  (forall b off, b <> [] ->
     ReadAt s1 b off =
     (s1, (b, 0, Some (if off <? 0 then ErrNegativeOffset else ErrClosed)))) /\
  Close s1 = (s1, Some ErrClosed).
Proof.
  intros H.
  destruct (Close_None_inv _ _ H) as (_ & _ & Hc & _ & _ & He & Hb & _).
  pose proof (Flush_empty (File s1) (buf s1) He Hb) as HF.
  splits.
  - intros pos. unfold Read. rewrite HF. unfold os.ReadAt.
    rewrite store_eta.
    destruct (to_int64 pos <? 0); [reflexivity|].
    change (make headerSizeBytes) with [x00; x00; x00; x00; x00; x00; x00; x00].
    now rewrite Hc.
  - intros b off Hne. unfold ReadAt. rewrite HF, store_eta. unfold os.ReadAt.
    destruct (off <? 0); [reflexivity|].
    destruct b as [|a b]; [congruence|]. now rewrite Hc.
  - unfold Close. rewrite HF. unfold os.Close. rewrite Hc. now rewrite store_eta.
Qed.

Lemma closed_store_cannot_be_read_witness :
  Read closed_store 0 = (closed_store, Err ErrClosed) /\
  Close closed_store = (closed_store, Some ErrClosed).
Proof.
  destruct (closed_store_cannot_be_read
              (fst (Append (store_of empty_file) hello)) closed_store)
    as (H1 & _ & H2); [evaluate|].
  split; [exact (H1 0)|exact H2].
Defined.

(** X11. [Append] does not notice that the store is closed: after a [Close]
    without error, an [Append] whose frame fits in the buffer returns
    success and the next position, yet the frame stays in the buffer and
    never reaches the file. The first flush, in [Read] or [Close], fails
    with [ErrClosed], and from then on every call returns that error. *)
Theorem Append_after_Close_is_lost (s s1 : store) (r : list byte) :
  wf s ->
  Close s = (s1, None) ->
  8 + len r <= bufio.defaultBufSize ->
  exists s2,
    Append s1 r = (s2, Ok (8 + len r, size s)) /\
    os.data (File s2) = os.data (File s1) /\
    (forall pos, Read s2 pos = (flushed s2, Err ErrClosed)) /\
    Close s2 = (flushed s2, Some ErrClosed) /\
    os.data (File (flushed s2)) = os.data (File s1) /\
    (forall r', Append (flushed s2) r' = (flushed s2, Err ErrClosed)).
Proof.
  intros Hwf H Hfit.
  destruct (Close_None_inv _ _ H) as (_ & _ & Hc & _ & _ & He & Hb & Hsz).
  assert (Hwf1 : wf s1).
  { pose proof (after_wf s CallClose Hwf) as W. simpl in W.
    now rewrite H in W. }
  assert (Hav : 8 + len r <= bufio.Available (buf s1)).
  { unfold bufio.Available. rewrite Hb. change (len (@nil byte)) with 0. lia. }
  pose proof (Append_buffered s1 r Hwf1 He Hav) as HA.
  rewrite Hb, Hsz in HA. simpl in HA.
  eexists. split; [exact HA|].
  set (s2 := {| File := File s1; buf := _; size := _ |}).
  assert (HF : bufio.Flush (File s2) (buf s2) =
               (File s1, {| bufio.err := Some ErrClosed; bufio.buf := frame r |},
                Some ErrClosed)).
  { unfold bufio.Flush, bufio.Buffered, s2. cbn [File buf bufio.err bufio.buf].
    pose proof (len_nonneg r).
    destruct (Z.eqb_spec (len (frame r)) 0) as [Hz|_];
      [rewrite len_frame in Hz; lia|].
    unfold os.Write. rewrite Hc. reflexivity. }
  assert (E : flush_error s2 = Some ErrClosed)
    by (unfold flush_error; now rewrite HF).
  assert (Hfl : File (flushed s2) = File s1 /\
                bufio.err (buf (flushed s2)) = Some ErrClosed).
  { unfold flushed. rewrite HF. now split. }
  destruct Hfl as [Hfile Herr].
  destruct (pending_error_calls (flushed s2) ErrClosed Herr) as (HA2 & _).
  splits; trivial.
  - intros pos. exact (Read_flush_error _ _ _ E).
  - exact (Close_flush_error _ _ E).
  - now rewrite Hfile.
Qed.

Lemma Append_after_Close_is_lost_witness :
  exists s2,
    Append closed_store bang = (s2, Ok (9, 13)) /\
    os.data (File s2) = os.data (File closed_store) /\
    (forall pos, Read s2 pos = (flushed s2, Err ErrClosed)).
Proof.
  destruct (Append_after_Close_is_lost
              (fst (Append (store_of empty_file) hello)) closed_store bang)
    as (s2 & H1 & H2 & H3 & _); [evaluate ..|].
  exists s2. now splits.
Defined.

(** *** Offsets out of the range of [int64] *)

(** X12. A position of 2^63 or more cannot be read: [Read] converts it to a
    negative [int64] offset and returns an error, whatever the file holds.
    [ReadAt] at a negative offset returns an error and the count 0 and
    leaves the slice as it was, even an empty one. *)
Theorem offsets_must_fit_int64 (s : store) (pos off : Z) (b : list byte) :
  two63 <= pos < two64 -> off < 0 ->
  is_Err (snd (Read s pos)) = true /\
  exists e, ReadAt s b off = (flushed s, (b, 0, Some e)).
Proof.
  intros Hpos Hoff. split.
  - destruct (flush_error s) as [e|] eqn:E;
      [now rewrite (Read_flush_error _ _ _ E)|].
    unfold Read. rewrite Flush_flushed, E. unfold os.ReadAt.
    pose proof (to_int64_neg pos Hpos) as Hneg.
    destruct (Z.ltb_spec (to_int64 pos) 0); [reflexivity|lia].
  - destruct (flush_error s) as [e|] eqn:E.
    + exists e. exact (ReadAt_flush_error _ _ _ _ E).
    + exists ErrNegativeOffset. rewrite (ReadAt_flush_ok _ _ _ E).
      unfold os.ReadAt. destruct (Z.ltb_spec off 0); [reflexivity|lia].
Qed.

Lemma offsets_must_fit_int64_witness :
  is_Err (snd (Read (store_of ff_file) (2 ^ 63))) = true /\
  exists e, ReadAt (store_of ff_file) [] (-1)
            = (flushed (store_of ff_file), ([], 0, Some e)).
Proof.
  apply (offsets_must_fit_int64 (store_of ff_file) (2 ^ 63) (-1) []); evaluate.
Defined.

(** *** When the calls succeed *)

(** X13. [Append] fails for lack of room only: on a well-formed store with
    no pending error, whose handle is open and whose device has room for the
    buffered bytes and the frames of all the records, appending the records
    one after the other succeeds for each, and no error is pending
    afterwards. *)
Theorem appends_succeed_with_room (rs : list (list byte)) (s : store) :
  wf s -> bufio.err (buf s) = None ->
  has_room (File s) (bufio.Buffered (buf s) + len (log_bytes rs)) ->
  exists s' nps,
    append_all s rs = (s', Some nps) /\
    length nps = length rs /\
    bufio.err (buf s') = None.
Proof.
  revert s. induction rs as [|r rs IH]; intros s Hwf He [Hc Hq]; simpl.
  - now exists s, [].
  - rewrite log_bytes_cons, len_app, len_frame in Hq.
    pose proof (len_nonneg (log_bytes rs)) as Hrs.
    destruct (Append_Ok s r Hwf He) as (s1 & HA); [split; [trivial|lia]|].
    rewrite HA.
    destruct (Append_Ok_inv _ _ _ _ _ Hwf HA)
      as (_ & _ & _ & Hcont & Hwf1 & (Hq1 & Hc1 & _) & He1).
    assert (L : len (contents s1) = len (contents s) + (8 + len r))
      by (rewrite Hcont, len_app, len_frame; lia).
    unfold contents in L. rewrite !len_app in L.
    destruct (IH s1 Hwf1 He1) as (s' & nps & HR & Hl & He').
    { split; [congruence|]. unfold bufio.Buffered in *. lia. }
    rewrite HR. exists s', ((8 + len r, size s) :: nps).
    splits; trivial. simpl. now rewrite Hl.
Qed.

Lemma appends_succeed_with_room_witness :
  exists s' nps,
    append_all (store_of empty_file) [hello; large_record; []; bang]
    = (s', Some nps) /\
    length nps = 4%nat /\ bufio.err (buf s') = None.
Proof.
  apply (appends_succeed_with_room [hello; large_record; []; bang]
           (store_of empty_file)); evaluate.
Defined.

(** X14. [Close] makes the log durable: on a consistent store with no
    pending error whose handle is open and whose device has room for the
    buffered bytes, [Close] returns no error and leaves a closed file that
    holds exactly the bytes of the log, [size] of them, and an empty
    buffer. *)
Theorem Close_with_room_settles_the_log (s : store) :
  consistent s -> bufio.err (buf s) = None ->
  has_room (File s) (bufio.Buffered (buf s)) ->
  snd (Close s) = None /\
  os.closed (File (fst (Close s))) = true /\
  os.data (File (fst (Close s))) = contents s /\
  len (os.data (File (fst (Close s)))) = size s /\
  bufio.buf (buf (fst (Close s))) = [] /\
  size (fst (Close s)) = size s.
Proof.
  intros Hc He Hroom. pose proof Hc as (Hwf & _).
  assert (E : flush_error s = None) by (apply flush_error_None; auto).
  destruct (flushed_spec s Hwf) as (_ & _ & _ & _ & _ & Hnone).
  destruct (Hnone E) as [Hbuf Hdata].
  destruct (os_Close_spec (File (flushed s))) as (Hd & _ & _ & _ & Hopen & _).
  rewrite flushed_closed in Hopen. destruct Hroom as [Hcl _].
  destruct (Hopen Hcl) as [H1 H2].
  rewrite (Close_flush_ok _ E). simpl.
  rewrite Hd, Hdata, Hbuf. splits; trivial.
  symmetry. now apply size_contents.
Qed.

Lemma Close_with_room_settles_the_log_witness :
  snd (Close (fst (Append (store_of empty_file) hello))) = None /\
  os.data (File closed_store) = frame hello.
Proof.
  destruct (Close_with_room_settles_the_log
              (fst (Append (store_of empty_file) hello)))
    as (H1 & _ & H2 & _); [evaluate ..|].
  split; [exact H1|exact H2].
Defined.
